(** * Schnorr signatures of mina-signer (src/mina-signer/signature.ts)

    A shallow embedding of [sign], [verify], [deriveNonce], [hashMessage] and
    of the [Signature] base58 codec, generic over the arithmetic, curve and
    hash collaborators that signature.ts imports. *)

From Stdlib Require Import String Ascii ZArith Bool Lia Znumtheory List.
From Stdlib Require Import Morphisms Setoid.
Import ListNotations.
Open Scope Z_scope.

(** ** JavaScript completions: a call returns normally or throws *)

Inductive exn : Type :=
| Error (msg : string).

Inductive result (A : Type) : Type :=
| Ok (a : A)
| Throw (e : exn).

Arguments Ok {A} a.
Arguments Throw {A} e.

Definition bind {A B : Type} (m : result A) (k : A -> result B) : result B :=
  match m with
  | Ok a => k a
  | Throw e => Throw e
  end.

Notation "x <- m ;; k" := (bind m (fun x => k))
  (at level 61, m at next level, right associativity).

(** [try { body } catch { handler }] *)
Definition try_catch {A : Type} (body : result A) (handler : exn -> result A)
  : result A :=
  match body with
  | Ok a => Ok a
  | Throw e => handler e
  end.

(** ** Data model *)

(** Both fields are represented with native bigints. *)
Definition Field : Type := Z.
Definition Scalar : Type := Z.
Definition PrivateKey : Type := Scalar.

(** [type Group = { x: Field; y: Field }]: a non-zero affine point. *)
Record Group : Type := mkGroup { Group_x : Field; Group_y : Field }.

(** [type PublicKey = { x: Field; isOdd: Bool }]: a compressed point. *)
Record PublicKey : Type := mkPublicKey { PublicKey_x : Field; PublicKey_isOdd : bool }.

(** [type Signature = { r: Field; s: Scalar }] *)
Record Signature : Type := mkSignature { Signature_r : Field; Signature_s : Scalar }.

(** Modelled from the spec: the [HashInput] type of poseidon-bigint.ts, an
    ordered sequence of field elements and an ordered sequence of
    (integer, bit-width) pairs; an absent property is the empty sequence. *)
Record HashInput : Type := mkHashInput
  { fields : list Field; packed : list (Field * Z) }.

(** Modelled from the spec: [HashInput.append] of poseidon-bigint.ts; the
    fields of the left operand precede those of the right, likewise for the
    packed pairs. *)
Definition HashInput_append (a b : HashInput) : HashInput :=
  {| fields := fields a ++ fields b; packed := packed a ++ packed b |}.

(** [type NetworkId = 'mainnet' | 'testnet']: a string at run time. *)
Definition NetworkId : Type := string.
Bind Scope string_scope with NetworkId.

Definition networkIdMainnet : Z := 0x01.
Definition networkIdTestnet : Z := 0x00.

(** ** Bytes *)

(** [bytes[i] = f(bytes[i])] on a typed array: an index outside the array
    leaves it unchanged. *)
Fixpoint modify_nth (l : list Z) (i : nat) (f : Z -> Z) : list Z :=
  match l, i with
  | [], _ => []
  | b :: rest, O => f b :: rest
  | b :: rest, S j => b :: modify_nth rest j f
  end.

Definition array_modify (bytes : list Z) (i : Z) (f : Z -> Z) : list Z :=
  if i <? 0 then bytes else modify_nth bytes (Z.to_nat i) f.

Definition is_byte (b : Z) : Prop := 0 <= b < 256.

(** The integers [0 .. n-1]. *)
Definition Z_range (n : nat) : list Z := map Z.of_nat (seq 0 n).

(** Modelled from the spec: the unsigned integer a byte sequence stands for
    ([bytesToBigInt] of the bigint helpers), least significant byte first:
    signature.ts drops bits 254 and 255 by masking the last byte. *)
Fixpoint bytesToBigInt (bytes : list Z) : Z :=
  match bytes with
  | [] => 0
  | b :: rest => b + 256 * bytesToBigInt rest
  end.

(** ** Finite-field arithmetic with modulus [m] *)

(** The field operations of js_crypto/finite_field.ts that signature.ts
    calls, on bigints with the modulus [m]. *)

(** Modelled from the spec: [add] of js_crypto/finite_field.ts. *)
Definition Fp_add (m x y : Z) : Z := (x + y) mod m.

(** Modelled from the spec: [mul] of js_crypto/finite_field.ts. *)
Definition Fp_mul (m x y : Z) : Z := (x * y) mod m.

(** Modelled from the spec: [negate] of js_crypto/finite_field.ts; the
    result is again in [0, m). *)
Definition Fp_negate (m x : Z) : Z := if x =? 0 then 0 else m - x.

(** Modelled from the spec: [equal] of js_crypto/finite_field.ts, equality
    in the field. *)
Definition Fp_equal (m x y : Z) : bool := (x - y) mod m =? 0.

(** Modelled from the spec: [isEven] of js_crypto/finite_field.ts, the
    parity of the integer that stands for the element. *)
Definition Fp_isEven (x : Z) : bool := Z.land x 1 =? 0.

(** ** The collaborators of signature.ts *)

(** The imports of signature.ts whose code is outside this file: the two
    moduli, the bit and byte conversions, the message encoder, the two hash
    functions and the curve.  [GroupProjective] is the type of the points of
    the curve, infinity included.  Four of them can throw: [Field.fromBits]
    (it checks that the number read is a field element),
    [Group.fromProjective] and [Group.scale] (at infinity), and
    [PublicKey.toGroup] (an x-coordinate that is not on the curve). *)
Class Backend : Type := {
  (* js_crypto/finite_field.ts *)
  Field_modulus : Z;
  Scalar_modulus : Z;
  (* provable/field-bigint.ts, provable/curve-bigint.ts, provable/binable.ts *)
  Scalar_toBits : Scalar -> list bool;
  Field_fromBits : list bool -> result Field;
  Field_toBits : Field -> list bool;
  bitsToBytes : list bool -> list Z;
  (* provable/poseidon-bigint.ts *)
  packToFields : HashInput -> list Field;
  hashWithPrefix : string -> list Field -> Field;
  prefixes_signatureMainnet : string;
  prefixes_signatureTestnet : string;
  (* blakejs: blake2b(input, key, outlen) *)
  blake2b : list Z -> option (list Z) -> Z -> list Z;
  (* js_crypto/elliptic_curve.ts *)
  GroupProjective : Type;
  Pallas_zero : GroupProjective;
  Pallas_one : GroupProjective;
  Pallas_add : GroupProjective -> GroupProjective -> GroupProjective;
  Pallas_negate : GroupProjective -> GroupProjective;
  Pallas_sub : GroupProjective -> GroupProjective -> GroupProjective;
  Pallas_scale : GroupProjective -> Scalar -> GroupProjective;
  (* provable/curve-bigint.ts *)
  Group_generatorMina : Group;
  Group_toProjective : Group -> GroupProjective;
  Group_fromProjective : GroupProjective -> result Group;
  Group_scale : Group -> Scalar -> result Group;
  PublicKey_toGroup : PublicKey -> result Group;
  PublicKey_fromGroup : Group -> PublicKey
}.

Section SignatureTs.

Context {B : Backend}.

Definition Field_isEven (x : Field) : bool := Fp_isEven x.
Definition Field_equal (x y : Field) : bool := Fp_equal Field_modulus x y.
Definition Field_negate (x : Field) : Field := Fp_negate Field_modulus x.
Definition Scalar_equal (x y : Scalar) : bool := Fp_equal Scalar_modulus x y.
Definition Scalar_negate (x : Scalar) : Scalar := Fp_negate Scalar_modulus x.
Definition Scalar_add (x y : Scalar) : Scalar := Fp_add Scalar_modulus x y.
Definition Scalar_mul (x y : Scalar) : Scalar := Fp_mul Scalar_modulus x y.

(** Modelled from the spec: [Scalar.fromBytes] of curve-bigint.ts, the byte
    sequence read as an unsigned integer and reduced modulo the scalar field
    order. *)
Definition Scalar_fromBytes (bytes : list Z) : Scalar :=
  bytesToBigInt bytes mod Scalar_modulus.

(** *** signature.ts, lines 124-145 *)
Definition deriveNonce (message : HashInput) (publicKey : Group)
  (privateKey : Scalar) (networkId : NetworkId) : result Scalar :=
  let x := Group_x publicKey in
  let y := Group_y publicKey in
  d <- Field_fromBits (Scalar_toBits privateKey) ;;
  let id := if String.eqb networkId "mainnet"
            then networkIdMainnet else networkIdTestnet in
  let input := HashInput_append message
                 {| fields := [x; y; d]; packed := [(id, 8)] |} in
  let packedInput := packToFields input in
  let inputBits := concat (map Field_toBits packedInput) in
  let inputBytes := bitsToBytes inputBits in
  let bytes := blake2b inputBytes None 32 in
  let bytes := array_modify bytes (Z.of_nat (length bytes) - 1)
                 (fun b => Z.land b 0x3f) in
  Ok (Scalar_fromBytes bytes).

(** *** signature.ts, lines 163-176 *)
Definition hashMessage (message : HashInput) (publicKey : Group) (r : Field)
  (networkId : NetworkId) : Scalar :=
  let x := Group_x publicKey in
  let y := Group_y publicKey in
  let input := HashInput_append message
                 {| fields := [x; y; r]; packed := [] |} in
  let prefix := if String.eqb networkId "mainnet"
                then prefixes_signatureMainnet
                else prefixes_signatureTestnet in
  hashWithPrefix prefix (packToFields input).

(** *** signature.ts, lines 96-109 *)
Definition sign (message : HashInput) (privateKey : PrivateKey)
  (networkId : NetworkId) : result Signature :=
  publicKey <- Group_scale Group_generatorMina privateKey ;;
  kPrime <- deriveNonce message publicKey privateKey networkId ;;
  if Scalar_equal kPrime 0 then Throw (Error "sign: derived nonce is 0") else
  R <- Group_scale Group_generatorMina kPrime ;;
  let rx := Group_x R in
  let ry := Group_y R in
  let k := if Field_isEven ry then kPrime else Scalar_negate kPrime in
  let e := hashMessage message publicKey rx networkId in
  let s := Scalar_add k (Scalar_mul e privateKey) in
  Ok {| Signature_r := rx; Signature_s := s |}.

(** The point the verifier reconstructs from the decompressed key [pk]:
    [s*G - e*pk] (signature.ts, lines 196-198). *)
Definition verify_R (signature : Signature) (message : HashInput)
  (pk : Group) (networkId : NetworkId) : GroupProjective :=
  let r := Signature_r signature in
  let s := Signature_s signature in
  let e := hashMessage message pk r networkId in
  Pallas_sub (Pallas_scale Pallas_one s)
             (Pallas_scale (Group_toProjective pk) e).

(** *** signature.ts, lines 188-206; [PublicKey.toGroup] (line 195) is
    called before the [try] block, so what it throws leaves [verify]. *)
Definition verify (signature : Signature) (message : HashInput)
  (publicKey : PublicKey) (networkId : NetworkId) : result bool :=
  let r := Signature_r signature in
  pk <- PublicKey_toGroup publicKey ;;
  let R := verify_R signature message pk networkId in
  try_catch
    (P <- Group_fromProjective R ;;
     let rx := Group_x P in
     let ry := Group_y P in
     Ok (Field_isEven ry && Field_equal rx r))
    (fun _ => Ok false).

(** *** signature.ts, lines 55-72 *)
Definition signFieldElement (message : Field) (privateKey : PrivateKey)
  (networkId : NetworkId) : result Signature :=
  sign {| fields := [message]; packed := [] |} privateKey networkId.

Definition verifyFieldElement (signature : Signature) (message : Field)
  (publicKey : PublicKey) (networkId : NetworkId) : result bool :=
  verify signature {| fields := [message]; packed := [] |} publicKey networkId.

End SignatureTs.

(** ** What the proofs assume of the curve and of the hash *)

(** Two projective points are the same point of the curve when they have the
    same affine form (or both have none). *)
Definition peq {B : Backend} (P Q : GroupProjective) : Prop :=
  Group_fromProjective P = Group_fromProjective Q.

(** Modelled from the spec: the contract of the curve interface of
    js_crypto/elliptic_curve.ts and provable/curve-bigint.ts.  The points form
    a commutative group of prime order [Scalar_modulus] generated by
    [Pallas_one]; [Pallas_scale] is repeated addition; the conversion to affine
    coordinates fails exactly at infinity; negating a point negates its
    y-coordinate in the base field, whose modulus is odd; [PublicKey.toGroup]
    undoes [PublicKey.fromGroup]; the Poseidon hash returns a field element. *)
Class BackendLaws (B : Backend) : Prop := {
  Field_modulus_odd : Z.odd Field_modulus = true;
  Scalar_modulus_prime : Z.prime Scalar_modulus;
  Pallas_add_proper : forall P P' Q Q',
    peq P P' -> peq Q Q' -> peq (Pallas_add P Q) (Pallas_add P' Q');
  Pallas_negate_proper : forall P P',
    peq P P' -> peq (Pallas_negate P) (Pallas_negate P');
  Pallas_scale_proper : forall P P' n,
    peq P P' -> peq (Pallas_scale P n) (Pallas_scale P' n);
  Pallas_add_assoc : forall P Q R,
    peq (Pallas_add (Pallas_add P Q) R) (Pallas_add P (Pallas_add Q R));
  Pallas_add_comm : forall P Q, peq (Pallas_add P Q) (Pallas_add Q P);
  Pallas_add_zero : forall P, peq (Pallas_add P Pallas_zero) P;
  Pallas_add_negate : forall P, peq (Pallas_add P (Pallas_negate P)) Pallas_zero;
  Pallas_sub_add : forall P Q,
    peq (Pallas_sub P Q) (Pallas_add P (Pallas_negate Q));
  Pallas_scale_0 : forall P, peq (Pallas_scale P 0) Pallas_zero;
  Pallas_scale_succ : forall P n, 0 <= n ->
    peq (Pallas_scale P (n + 1)) (Pallas_add (Pallas_scale P n) P);
  Pallas_one_order : peq (Pallas_scale Pallas_one Scalar_modulus) Pallas_zero;
  fromProjective_zero : exists e, Group_fromProjective Pallas_zero = Throw e;
  fromProjective_Throw : forall P e,
    Group_fromProjective P = Throw e -> peq P Pallas_zero;
  generatorMina_one : Group_fromProjective Pallas_one = Ok Group_generatorMina;
  fromProjective_toProjective : forall P g,
    Group_fromProjective P = Ok g ->
    Group_fromProjective (Group_toProjective g) = Ok g;
  fromProjective_negate : forall P g,
    Group_fromProjective P = Ok g ->
    Group_fromProjective (Pallas_negate P)
    = Ok {| Group_x := Group_x g; Group_y := Field_negate (Group_y g) |};
  Group_scale_spec : forall g n,
    Group_scale g n
    = Group_fromProjective (Pallas_scale (Group_toProjective g) n);
  toGroup_fromGroup : forall P g,
    Group_fromProjective P = Ok g ->
    PublicKey_toGroup (PublicKey_fromGroup g) = Ok g;
  hashWithPrefix_range : forall prefix xs,
    0 <= hashWithPrefix prefix xs < Field_modulus
}.

(** ** The two derivations as the specification words them *)

(** The network ids of the specification: an enumeration. *)
Inductive Network : Type :=
| Mainnet
| Testnet.

Definition Network_id (n : Network) : NetworkId :=
  match n with
  | Mainnet => "mainnet"
  | Testnet => "testnet"
  end%string.

(** Mainnet is [0x01], testnet is [0x00]. *)
Definition networkCode (n : Network) : Z :=
  match n with
  | Mainnet => 0x01
  | Testnet => 0x00
  end.

Section Specification.

Context {B : Backend}.

(** The nonce deriver in the words of the specification: re-encode the
    private key as a field element [d], extend the message
    with [[x; y; d]] and the pair (network code, 8 bits), encode, decompose
    into bits, regroup into bytes, hash to 32 bytes, clear the top two bits
    of byte 31, read the bytes as an unsigned integer modulo the scalar field
    order. *)
Definition deriveNonce_spec (message : HashInput) (publicKey : Group)
  (privateKey : Scalar) (n : Network) : result Scalar :=
  d <- Field_fromBits (Scalar_toBits privateKey) ;;
  let extended :=
    HashInput_append message
      {| fields := [Group_x publicKey; Group_y publicKey; d];
         packed := [(networkCode n, 8)] |} in
  let bits := concat (map Field_toBits (packToFields extended)) in
  let h := blake2b (bitsToBytes bits) None 32 in
  let masked := firstn 31 h ++ [Z.land (nth 31 h 0) 0x3f] in
  Ok (bytesToBigInt masked mod Scalar_modulus).

(** The challenge hasher in the words of the specification: extend the
    message with [[x; y; r]], encode, hash under the prefix of the network. *)
Definition hashMessage_spec (message : HashInput) (publicKey : Group)
  (r : Field) (n : Network) : Field :=
  let extended :=
    HashInput_append message
      {| fields := [Group_x publicKey; Group_y publicKey; r]; packed := [] |} in
  let prefix := match n with
                | Mainnet => prefixes_signatureMainnet
                | Testnet => prefixes_signatureTestnet
                end in
  hashWithPrefix prefix (packToFields extended).

End Specification.

(** ** The signature codec *)

(** Modelled from the spec: the [Binable] interface of provable/binable.ts, a
    writer to bytes and a reader that returns the value and the bytes left. *)
Record Binable (T : Type) : Type := mkBinable {
  toBytes : T -> list Z;
  readBytes : list Z -> result (T * list Z)
}.

Arguments toBytes {T} _ _.
Arguments readBytes {T} _ _.

(** Modelled from the spec: [fromBytes] of provable/binable.ts; the whole
    input has to be consumed. *)
Definition fromBytes {T : Type} (binable : Binable T) (bytes : list Z)
  : result T :=
  vr <- readBytes binable bytes ;;
  match snd vr with
  | [] => Ok (fst vr)
  | _ :: _ => Throw (Error "fromBytes: input bytes left over")
  end.

(** Modelled from the spec: [bigIntToBytes] of the bigint helpers, the
    [length] low bytes of [x], least significant first. *)
Fixpoint bigIntToBytes (x : Z) (length : nat) : list Z :=
  match length with
  | O => []
  | S n => x mod 256 :: bigIntToBytes (x / 256) n
  end.

(** Modelled from the spec: [BinableBigint] of provable/binable.ts, the
    binary form of an element of the field with the given modulus, in a fixed
    number of bytes.  The reader takes the bytes that are there, up to
    [sizeInBytes] of them and none past the end of the input, reads them as a
    number, least significant byte first, and checks that the number is below
    the modulus. *)
Definition BinableBigint (sizeInBytes : nat) (modulus : Z) : Binable Z := {|
  toBytes := fun x => bigIntToBytes x sizeInBytes;
  readBytes := fun bytes =>
    let x := bytesToBigInt (firstn sizeInBytes bytes) in
    if x <? modulus
    then Ok (x, skipn sizeInBytes bytes)
    else Throw (Error "readBytes: inputs larger than the modulus are not allowed")
|}.

(** Modelled from the spec: [tuple] of provable/binable.ts for two
    components, one after the other. *)
Definition tuple {A C : Type} (a : Binable A) (c : Binable C)
  : Binable (A * C) := {|
  toBytes := fun t => toBytes a (fst t) ++ toBytes c (snd t);
  readBytes := fun bytes =>
    xr <- readBytes a bytes ;;
    yr <- readBytes c (snd xr) ;;
    Ok ((fst xr, fst yr), snd yr)
|}.

(** Modelled from the spec: [withVersionNumber] of provable/binable.ts; the
    writer puts the version tag in front, one byte; the reader steps over
    that byte without looking at it. *)
Definition withVersionNumber {T : Type} (binable : Binable T)
  (versionNumber : Z) : Binable T := {|
  toBytes := fun t => versionNumber :: toBytes binable t;
  readBytes := fun bytes => readBytes binable (skipn 1 bytes)
|}.

(** Modelled from the spec: the number a list of digits stands for, least
    significant first (the reading half of [changeBase]). *)
Fixpoint fromDigits (base : Z) (digits : list Z) : Z :=
  match digits with
  | [] => 0
  | d :: rest => d + base * fromDigits base rest
  end.

Definition digits_in_range (base : Z) (l : list Z) : Prop :=
  Forall (fun d => 0 <= d < base) l.

(** No zero at the most significant end. *)
Definition canonical (l : list Z) : Prop := last l 1 <> 0.

(** Modelled from the spec: the digits of [n], least significant first,
    none for zero (the writing half of [changeBase]). *)
Fixpoint toDigits_fuel (fuel : nat) (base n : Z) : list Z :=
  match fuel with
  | O => []
  | S fuel' =>
      if n <=? 0 then [] else n mod base :: toDigits_fuel fuel' base (n / base)
  end.

Definition toDigits (base n : Z) : list Z :=
  toDigits_fuel (S (Z.to_nat (Z.log2 n))) base n.

(** Modelled from the spec: [changeBase] of provable/base58.ts. *)
Definition changeBase (digits : list Z) (base newBase : Z) : list Z :=
  toDigits newBase (fromDigits base digits).

(** The number of zeros a list starts with: [while (bytes[z] === 0) z++]. *)
Fixpoint leadingZeros (l : list Z) : nat :=
  match l with
  | [] => O
  | d :: rest => if d =? 0 then S (leadingZeros rest) else O
  end.

(** Modelled from the spec: the base58 alphabet of provable/base58.ts. *)
Definition alphabet : list ascii :=
  list_ascii_of_string
    "123456789ABCDEFGHJKLMNPQRSTUVWXYZabcdefghijkmnopqrstuvwxyz".

Definition digitToChar (d : Z) : ascii := nth (Z.to_nat d) alphabet "1"%char.

Fixpoint indexOf (c : ascii) (l : list ascii) (i : Z) : option Z :=
  match l with
  | [] => None
  | c' :: rest => if Ascii.eqb c c' then Some i else indexOf c rest (i + 1)
  end.

Definition charToDigit (c : ascii) : option Z := indexOf c alphabet 0.

Fixpoint charsToDigits (cs : list ascii) : result (list Z) :=
  match cs with
  | [] => Ok []
  | c :: rest =>
      match charToDigit c with
      | None => Throw (Error "fromBase58: invalid character")
      | Some d => ds <- charsToDigits rest ;; Ok (d :: ds)
      end
  end.

(** Modelled from the spec: [toBase58] of provable/base58.ts; leading zero
    bytes become leading zero digits, the rest is the big-endian number
    written in base 58. *)
Definition toBase58 (bytes : list Z) : string :=
  let z := leadingZeros bytes in
  let digits := rev bytes in
  let base58Digits := rev (changeBase digits 256 58) in
  string_of_list_ascii (map digitToChar (repeat 0 z ++ base58Digits)).

(** Modelled from the spec: [fromBase58] of provable/base58.ts. *)
Definition fromBase58 (base58 : string) : result (list Z) :=
  base58Digits <- charsToDigits (list_ascii_of_string base58) ;;
  let z := leadingZeros base58Digits in
  let digits := rev (changeBase (rev base58Digits) 58 256) in
  Ok (repeat 0 z ++ digits).

(** Modelled from the spec: [arrayEqual] of provable/base58.ts. *)
Fixpoint arrayEqual (a b : list Z) : bool :=
  match a, b with
  | [], [] => true
  | x :: a', y :: b' => (x =? y) && arrayEqual a' b'
  | _, _ => false
  end.

(** What the codec takes from its surroundings: the four-byte checksum of
    base58-check and the two version tags of a signature. *)
Class CodecParams : Type := {
  computeChecksum : list Z -> list Z;
  versionNumbers_signature : Z;
  versionBytes_signature : Z
}.

(** Modelled from the spec: the text form of a value, with its reader. *)
Record Base58 (T : Type) : Type := mkBase58 {
  Base58_toBase58 : T -> string;
  Base58_fromBase58 : string -> result T
}.

Arguments Base58_toBase58 {T} _ _.
Arguments Base58_fromBase58 {T} _ _.

Section Codec.

Context {B : Backend} {C : CodecParams}.

(** Modelled from the spec: the binary form of [Field] in
    provable/field-bigint.ts; an element takes 32 bytes. *)
Definition Field_binable : Binable Field := BinableBigint 32 Field_modulus.

(** Modelled from the spec: the binary form of [Scalar] in
    provable/curve-bigint.ts; an element takes 32 bytes. *)
Definition Scalar_binable : Binable Scalar := BinableBigint 32 Scalar_modulus.

(** Modelled from the spec: [toBase58Check] of provable/base58.ts; version
    byte, payload, checksum of both. *)
Definition toBase58Check (input : list Z) (versionByte : Z) : string :=
  let withVersion := versionByte :: input in
  let checksum := computeChecksum withVersion in
  let withChecksum := withVersion ++ checksum in
  toBase58 withChecksum.

(** Modelled from the spec: [fromBase58Check] of provable/base58.ts; a bad
    checksum and a wrong version byte are decoding errors. *)
Definition fromBase58Check (base58 : string) (versionByte : Z)
  : result (list Z) :=
  bytes <- fromBase58 base58 ;;
  let checksum := skipn (length bytes - 4) bytes in
  let originalBytes := firstn (length bytes - 4) bytes in
  let actualChecksum := computeChecksum originalBytes in
  if negb (arrayEqual checksum actualChecksum)
  then Throw (Error "fromBase58Check: invalid checksum")
  else
    match originalBytes with
    | [] => Throw (Error "fromBase58Check: input version byte is missing")
    | version :: payload =>
        if version =? versionByte then Ok payload
        else Throw (Error "fromBase58Check: input version byte does not match")
    end.

(** Modelled from the spec: [base58] of provable/base58.ts. *)
Definition base58 {T : Type} (binable : Binable T) (versionByte : Z)
  : Base58 T := {|
  Base58_toBase58 := fun t => toBase58Check (toBytes binable t) versionByte;
  Base58_fromBase58 := fun base58 =>
    bytes <- fromBase58Check base58 versionByte ;;
    fromBytes binable bytes
|}.

(** *** signature.ts, lines 36-40 *)
Definition BinableSignature : Binable (Field * Scalar) :=
  withVersionNumber (tuple Field_binable Scalar_binable)
    versionNumbers_signature.

Definition BinableBase58 : Base58 (Field * Scalar) :=
  base58 BinableSignature versionBytes_signature.

(** *** signature.ts, lines 42-50 *)
Definition Signature_toBase58 (signature : Signature) : string :=
  Base58_toBase58 BinableBase58
    (Signature_r signature, Signature_s signature).

Definition Signature_fromBase58 (signatureBase58 : string)
  : result Signature :=
  rs <- Base58_fromBase58 BinableBase58 signatureBase58 ;;
  Ok {| Signature_r := fst rs; Signature_s := snd rs |}.

End Codec.

(** ** SHA-256

    Modelled from the spec: the hash function under the checksum of
    base58-check (FIPS 180-4), on a sequence of bytes. *)

Module SHA256.

Definition word (x : Z) : Z := x mod 2 ^ 32.

Definition rotr (n x : Z) : Z :=
  Z.lor (Z.shiftr x n) (word (Z.shiftl x (32 - n))).

Definition Ch (x y z : Z) : Z :=
  Z.lxor (Z.land x y) (Z.land (Z.lxor x 0xffffffff) z).

Definition Maj (x y z : Z) : Z :=
  Z.lxor (Z.lxor (Z.land x y) (Z.land x z)) (Z.land y z).

Definition Sigma0 (x : Z) : Z :=
  Z.lxor (Z.lxor (rotr 2 x) (rotr 13 x)) (rotr 22 x).

Definition Sigma1 (x : Z) : Z :=
  Z.lxor (Z.lxor (rotr 6 x) (rotr 11 x)) (rotr 25 x).

Definition sigma0 (x : Z) : Z :=
  Z.lxor (Z.lxor (rotr 7 x) (rotr 18 x)) (Z.shiftr x 3).

Definition sigma1 (x : Z) : Z :=
  Z.lxor (Z.lxor (rotr 17 x) (rotr 19 x)) (Z.shiftr x 10).

(** Trial division. *)
Definition is_prime (n : Z) : bool :=
  (2 <=? n)
  && forallb (fun d => (d <? 2) || (n <? d * d) || negb (n mod d =? 0))
       (Z_range (Z.to_nat n)).

(** The first 64 primes: 2, 3, 5, ..., 311. *)
Definition primes : list Z :=
  Eval vm_compute in filter is_prime (Z_range 312).

(** The integer cube root, by bisection between [lo] and [hi]. *)
Fixpoint cbrt_between (fuel : nat) (lo hi x : Z) : Z :=
  match fuel with
  | O => lo
  | S fuel' =>
      if hi - lo <=? 1 then lo
      else
        let mid := (lo + hi) / 2 in
        if mid * mid * mid <=? x
        then cbrt_between fuel' mid hi x
        else cbrt_between fuel' lo mid x
  end.

Definition cbrt (x : Z) : Z := cbrt_between 256 0 (x + 1) x.

(** The round constants: the first 32 bits of the fractional parts of the
    cube roots of the first 64 primes. *)
Definition K : list Z :=
  Eval vm_compute in map (fun n => word (cbrt (n * 2 ^ 96))) primes.

(** The initial hash value: the first 32 bits of the fractional parts of
    the square roots of the first 8 primes. *)
Definition H0 : list Z :=
  Eval vm_compute in
    map (fun n => word (Z.sqrt (n * 2 ^ 64))) (firstn 8 primes).

(** The number a sequence of bytes stands for, most significant first. *)
Fixpoint fromBigEndian (bytes : list Z) (acc : Z) : Z :=
  match bytes with
  | [] => acc
  | b :: rest => fromBigEndian rest (acc * 256 + b)
  end.

(** The [n] low bytes of [x], most significant first. *)
Fixpoint toBigEndian (n : nat) (x : Z) : list Z :=
  match n with
  | O => []
  | S n' => (x / 256 ^ Z.of_nat n') mod 256 :: toBigEndian n' x
  end.

(** The message, the byte [0x80], zeros up to 56 modulo 64, and the length
    in bits on eight bytes. *)
Definition pad (message : list Z) : list Z :=
  let l := Z.of_nat (length message) in
  message ++ [0x80] ++ repeat 0 (Z.to_nat ((55 - l) mod 64))
          ++ toBigEndian 8 (8 * l).

Fixpoint chunks (count size : nat) (l : list Z) : list (list Z) :=
  match count with
  | O => []
  | S count' => firstn size l :: chunks count' size (skipn size l)
  end.

(** The message schedule, latest word first. *)
Fixpoint extend (n : nat) (w : list Z) : list Z :=
  match n with
  | O => w
  | S n' =>
      extend n'
        (word (sigma1 (nth 1 w 0) + nth 6 w 0 + sigma0 (nth 14 w 0)
               + nth 15 w 0) :: w)
  end.

Definition schedule (block : list Z) : list Z :=
  let w16 := map (fun c => fromBigEndian c 0) (chunks 16 4 block) in
  rev (extend 48 (rev w16)).

Definition round (state : list Z) (kw : Z * Z) : list Z :=
  match state with
  | [a; b; c; d; e; f; g; h] =>
      let T1 := h + Sigma1 e + Ch e f g + fst kw + snd kw in
      let T2 := Sigma0 a + Maj a b c in
      [word (T1 + T2); a; b; c; word (d + T1); e; f; g]
  | _ => state
  end.

Definition compress (hash : list Z) (block : list Z) : list Z :=
  let final := fold_left round (combine K (schedule block)) hash in
  map (fun xy => word (fst xy + snd xy)) (combine hash final).

Definition sha256 (message : list Z) : list Z :=
  let padded := pad message in
  let blocks := chunks (length padded / 64) 64 padded in
  concat (map (toBigEndian 4) (fold_left compress blocks H0)).

End SHA256.

(** ** A small backend

    The same interface on a curve small enough to compute with: the curve
    [y^2 = x^3 + 3] over the field with 31 elements, whose 43 points form a
    group of prime order.  Bits and bytes are laid out least
    significant first; the two hash functions are simple folds. *)

Module Small.

Definition p : Z := 31.
Definition q : Z := 43.

Fixpoint pow_pos_mod (x : Z) (e : positive) : Z :=
  match e with
  | xH => x mod p
  | xO e' => let h := pow_pos_mod x e' in (h * h) mod p
  | xI e' => let h := pow_pos_mod x e' in (h * h * x) mod p
  end.

(** The inverse of a non-zero [x], as [x^(p-2)]. *)
Definition inverse (x : Z) : Z := pow_pos_mod x 29.

(** An affine point, or infinity. *)
Definition point : Type := option (Z * Z).

Definition on_curve (P : point) : bool :=
  match P with
  | None => true
  | Some (x, y) =>
      (0 <=? x) && (x <? p) && (0 <=? y) && (y <? p)
      && ((y * y - (x * x * x + 3)) mod p =? 0)
  end.

(** A value that is not a point of the curve is read as infinity. *)
Definition norm (P : point) : point := if on_curve P then P else None.

Definition add_points (P Q : point) : point :=
  match P, Q with
  | None, _ => Q
  | _, None => P
  | Some (x1, y1), Some (x2, y2) =>
      if x1 =? x2 then
        if (y1 + y2) mod p =? 0 then None
        else
          let l := (3 * x1 * x1 * inverse (2 * y1)) mod p in
          let x3 := (l * l - 2 * x1) mod p in
          Some (x3, (l * (x1 - x3) - y1) mod p)
      else
        let l := ((y2 - y1) * inverse (x2 - x1)) mod p in
        let x3 := (l * l - x1 - x2) mod p in
        Some (x3, (l * (x1 - x3) - y1) mod p)
  end.

Definition negate_point (P : point) : point :=
  match P with
  | None => None
  | Some (x, y) => Some (x, Fp_negate p y)
  end.

Fixpoint scale_pos (P : point) (n : positive) : point :=
  match n with
  | xH => P
  | xO n' => let h := scale_pos P n' in add_points h h
  | xI n' => let h := scale_pos P n' in add_points (add_points h h) P
  end.

Definition scale_point (P : point) (n : Z) : point :=
  match n with
  | Zpos n' => scale_pos P n'
  | _ => None
  end.

Definition add (P Q : point) : point := add_points (norm P) (norm Q).
Definition negate (P : point) : point := negate_point (norm P).
Definition sub (P Q : point) : point := add P (negate Q).
Definition scale (P : point) (n : Z) : point := scale_point (norm P) n.

(** The generator. *)
Definition one : point := Some (1, 2).

Definition toProjective (g : Group) : point := Some (Group_x g, Group_y g).

Definition fromProjective (P : point) : result Group :=
  match norm P with
  | None => Throw (Error "Group.fromProjective: point is infinity")
  | Some (x, y) => Ok {| Group_x := x; Group_y := y |}
  end.

(** A square root of [x^3 + 3], found by search; there is none when [x] is
    not the x-coordinate of a point of the curve. *)
Definition y_of_x (x : Z) : option Z :=
  find (fun y => (y * y - (x * x * x + 3)) mod p =? 0) (Z_range 31).

(** Decompression fails on an x-coordinate that is not on the curve. *)
Definition toGroup (pk : PublicKey) : result Group :=
  let x := PublicKey_x pk in
  match y_of_x x with
  | None => Throw (Error "PublicKey.toGroup: not a valid group element")
  | Some y =>
      Ok {| Group_x := x;
            Group_y := if Bool.eqb (PublicKey_isOdd pk) (Z.odd y)
                       then y else Fp_negate p y |}
  end.

Definition fromGroup (g : Group) : PublicKey :=
  {| PublicKey_x := Group_x g; PublicKey_isOdd := Z.odd (Group_y g) |}.

(** Bits, least significant first. *)
Definition toBits (width : nat) (x : Z) : list bool :=
  map (Z.testbit x) (Z_range width).

Fixpoint fromBits (bits : list bool) : Z :=
  match bits with
  | [] => 0
  | b :: rest => Z.b2z b + 2 * fromBits rest
  end.

(** The bits read as a number, which has to be an element of the field
    with the given modulus. *)
Definition fieldFromBits (modulus : Z) (bits : list bool) : result Field :=
  let x := fromBits bits in
  if x <? modulus then Ok x
  else Throw (Error "Field: inputs larger than the modulus are not allowed").

(** Bytes of eight bits each, the last one padded with zeros. *)
Fixpoint bytes_of_bits (fuel : nat) (bits : list bool) : list Z :=
  match fuel, bits with
  | _, [] => []
  | O, _ => []
  | S fuel', _ => fromBits (firstn 8 bits) :: bytes_of_bits fuel' (skipn 8 bits)
  end.

Definition bytes_of_bit_list (bits : list bool) : list Z :=
  bytes_of_bits (length bits) bits.

(** Every packed pair becomes a field of its own, after the fields. *)
Definition pack (input : HashInput) : list Field :=
  fields input ++ map fst (packed input).

Definition string_sum (s : string) : Z :=
  fold_left (fun acc c => acc + Z.of_nat (nat_of_ascii c))
    (list_ascii_of_string s) 0.

(** A fold in the base field, started from the prefix. *)
Definition fold_hash (prefix : string) (xs : list Field) : Field :=
  fold_left (fun acc x => (acc * 31 + x + 7) mod p) xs (string_sum prefix mod p).

(** [outlen] bytes that depend on the sum and the length of the input. *)
Definition byte_hash (input : list Z) (key : option (list Z)) (outlen : Z)
  : list Z :=
  let seed := fold_left Z.add input (Z.of_nat (length input)) in
  map (fun i => (seed * (2 * i + 3) + i * i + 11) mod 256)
      (Z_range (Z.to_nat outlen)).

#[export] Instance backend : Backend := {
  Field_modulus := p;
  Scalar_modulus := q;
  Scalar_toBits := toBits 255;
  Field_fromBits := fieldFromBits p;
  Field_toBits := toBits 255;
  bitsToBytes := bytes_of_bit_list;
  packToFields := pack;
  hashWithPrefix := fold_hash;
  prefixes_signatureMainnet := "MinaSignatureMainnet";
  prefixes_signatureTestnet := "CodaSignature*******";
  blake2b := byte_hash;
  GroupProjective := point;
  Pallas_zero := None;
  Pallas_one := one;
  Pallas_add := add;
  Pallas_negate := negate;
  Pallas_sub := sub;
  Pallas_scale := scale;
  Group_generatorMina := {| Group_x := 1; Group_y := 2 |};
  Group_toProjective := toProjective;
  Group_fromProjective := fromProjective;
  Group_scale := fun g n => fromProjective (scale (toProjective g) n);
  PublicKey_toGroup := toGroup;
  PublicKey_fromGroup := fromGroup
}.

(** The same backend with a byte hash that returns zeros only. *)
Definition backend_zero_hash : Backend := {|
  Field_modulus := p;
  Scalar_modulus := q;
  Scalar_toBits := toBits 255;
  Field_fromBits := fieldFromBits p;
  Field_toBits := toBits 255;
  bitsToBytes := bytes_of_bit_list;
  packToFields := pack;
  hashWithPrefix := fold_hash;
  prefixes_signatureMainnet := "MinaSignatureMainnet";
  prefixes_signatureTestnet := "CodaSignature*******";
  blake2b := fun _ _ outlen => repeat 0 (Z.to_nat outlen);
  GroupProjective := point;
  Pallas_zero := None;
  Pallas_one := one;
  Pallas_add := add;
  Pallas_negate := negate;
  Pallas_sub := sub;
  Pallas_scale := scale;
  Group_generatorMina := {| Group_x := 1; Group_y := 2 |};
  Group_toProjective := toProjective;
  Group_fromProjective := fromProjective;
  Group_scale := fun g n => fromProjective (scale (toProjective g) n);
  PublicKey_toGroup := toGroup;
  PublicKey_fromGroup := fromGroup
|}.

(** A four-byte checksum that depends on the sum and the length, and the
    version tags of a Mina signature. *)
Definition checksum (bytes : list Z) : list Z :=
  let seed := fold_left Z.add bytes (Z.of_nat (length bytes)) in
  map (fun i => (seed * (2 * i + 5) + 17 * i + 1) mod 256) (Z_range 4).

#[export] Instance codec : CodecParams := {
  computeChecksum := checksum;
  versionNumbers_signature := 1;
  versionBytes_signature := 154
}.

(** The multiples of the generator: [nth k multiples None] is [k * one]. *)
Fixpoint multiples_from (P : point) (n : nat) : list point :=
  match n with
  | O => []
  | S n' => P :: multiples_from (add_points P one) n'
  end.

Definition multiples : list point := Eval vm_compute in multiples_from None 43.

Definition multiple (k : Z) : point := nth (Z.to_nat k) multiples None.

Definition point_eqb (P Q : point) : bool :=
  match P, Q with
  | None, None => true
  | Some (x1, y1), Some (x2, y2) => (x1 =? x2) && (y1 =? y2)
  | _, _ => false
  end.

Fixpoint index_of (P : point) (l : list point) (k : Z) : Z :=
  match l with
  | [] => 0
  | Q :: rest => if point_eqb P Q then k else index_of P rest (k + 1)
  end.

(** The [k] with [P = k * one], for a point of the curve. *)
Definition log (P : point) : Z := index_of P multiples 0.

(** [rep P k]: the point [P] stands for is [k] times the generator. *)
Definition rep (P : point) (k : Z) : Prop :=
  0 <= k < q /\ norm P = multiple k.

End Small.

(** The small backend with the two moduli of Pallas,
    [2^254 + 45560315531419706090280762371685220353] for the base field and
    [2^254 + 45560315531506369815346746415080538113] for the scalars; its
    curve is not used. *)
Definition backend_Pallas_order : Backend := {|
  Field_modulus :=
    0x40000000000000000000000000000000224698fc094cf91b992d30ed00000001;
  Scalar_modulus :=
    0x40000000000000000000000000000000224698fc0994a8dd8c46eb2100000001;
  Scalar_toBits := Small.toBits 255;
  Field_fromBits :=
    Small.fieldFromBits
      0x40000000000000000000000000000000224698fc094cf91b992d30ed00000001;
  Field_toBits := Small.toBits 255;
  bitsToBytes := Small.bytes_of_bit_list;
  packToFields := Small.pack;
  hashWithPrefix := Small.fold_hash;
  prefixes_signatureMainnet := "MinaSignatureMainnet";
  prefixes_signatureTestnet := "CodaSignature*******";
  blake2b := Small.byte_hash;
  GroupProjective := Small.point;
  Pallas_zero := None;
  Pallas_one := Small.one;
  Pallas_add := Small.add;
  Pallas_negate := Small.negate;
  Pallas_sub := Small.sub;
  Pallas_scale := Small.scale;
  Group_generatorMina := {| Group_x := 1; Group_y := 2 |};
  Group_toProjective := Small.toProjective;
  Group_fromProjective := Small.fromProjective;
  Group_scale := fun g n =>
    Small.fromProjective (Small.scale (Small.toProjective g) n);
  PublicKey_toGroup := Small.toGroup;
  PublicKey_fromGroup := Small.fromGroup
|}.

(** Modelled from the spec: [computeChecksum] of provable/base58.ts, the
    first four bytes of SHA-256 applied twice, with the version tags of a
    signature, [versionNumbers.signature = 1] and
    [versionBytes.signature = 154]. *)
Definition codec_Mina : CodecParams := {|
  computeChecksum := fun bytes =>
    firstn 4 (SHA256.sha256 (SHA256.sha256 bytes));
  versionNumbers_signature := 1;
  versionBytes_signature := 154
|}.

(* ================================================================== *)
(** * Theorems *)

(** ** Completions *)

Lemma Ok_inj {A : Type} (a b : A) : Ok a = Ok b -> a = b.
Proof. congruence. Qed.

(** ** Bytes and parity *)

Lemma forallb_Z_range (f : Z -> bool) (n : nat) :
  forallb f (Z_range n) = true ->
  forall i, 0 <= i < Z.of_nat n -> f i = true.
Proof.
  intros H i Hi. rewrite forallb_forall in H. apply H.
  unfold Z_range. apply in_map_iff. exists (Z.to_nat i). split.
  - lia.
  - apply in_seq. lia.
Qed.

Lemma Fp_isEven_spec (x : Z) : Fp_isEven x = Z.even x.
Proof.
  unfold Fp_isEven.
  change 1 with (Z.ones 1).
  rewrite Z.land_ones by lia.
  change (2 ^ 1) with 2.
  rewrite Zeven_mod. reflexivity.
Qed.

Lemma Fp_equal_refl (m x : Z) : Fp_equal m x x = true.
Proof.
  unfold Fp_equal. rewrite Z.sub_diag.
  destruct (Z.eq_dec m 0) as [-> | Hm].
  - reflexivity.
  - rewrite Z.mod_0_l by assumption. reflexivity.
Qed.

Lemma Fp_equal_canonical (m x y : Z) :
  0 <= x < m -> 0 <= y < m -> (Fp_equal m x y = true <-> x = y).
Proof.
  intros Hx Hy. unfold Fp_equal. rewrite Z.eqb_eq. split.
  - intros H.
    apply Z.mod_divide in H; [| lia].
    destruct H as [c Hc].
    assert (c = 0) by nia. lia.
  - intros ->. rewrite Z.sub_diag. apply Z.mod_0_l. lia.
Qed.

Lemma Fp_negate_mod (m x : Z) : 0 <= x < m -> Fp_negate m x = (- x) mod m.
Proof.
  intros Hx. unfold Fp_negate.
  destruct (Z.eqb_spec x 0) as [-> | Hne].
  - rewrite Z.mod_0_l; lia.
  - apply Z.mod_unique with (q := -1); lia.
Qed.

Lemma Fp_negate_odd_even (m y : Z) :
  Z.odd m = true -> Fp_isEven y = false -> Fp_isEven (Fp_negate m y) = true.
Proof.
  intros Hm Hy. rewrite Fp_isEven_spec in *.
  unfold Fp_negate.
  destruct (Z.eqb_spec y 0) as [-> | _]; [discriminate |].
  rewrite Z.even_sub, <- Z.negb_odd, Hm, Hy. reflexivity.
Qed.

(** ** The group of the curve *)

Section CurveTheory.

Context {B : Backend} {L : BackendLaws B}.

Local Infix "==" := peq (at level 70, no associativity).

#[local] Instance peq_Equivalence : Equivalence (@peq B).
Proof.
  split.
  - intros P. reflexivity.
  - intros P Q H. unfold peq in *. congruence.
  - intros P Q R H1 H2. unfold peq in *. congruence.
Qed.

#[local] Instance Pallas_add_Proper :
  Proper (peq ==> peq ==> peq) Pallas_add.
Proof. intros P P' HP Q Q' HQ. now apply Pallas_add_proper. Qed.

#[local] Instance Pallas_negate_Proper : Proper (peq ==> peq) Pallas_negate.
Proof. intros P P' HP. now apply Pallas_negate_proper. Qed.

#[local] Instance Pallas_scale_Proper :
  Proper (peq ==> eq ==> peq) Pallas_scale.
Proof. intros P P' HP n n' <-. now apply Pallas_scale_proper. Qed.

#[local] Instance Pallas_sub_Proper :
  Proper (peq ==> peq ==> peq) Pallas_sub.
Proof.
  intros P P' HP Q Q' HQ.
  rewrite !Pallas_sub_add, HP, HQ. reflexivity.
Qed.

Lemma Scalar_modulus_pos : 1 < Scalar_modulus.
Proof. apply Scalar_modulus_prime. Qed.

Lemma Pallas_zero_add (P : GroupProjective) : Pallas_add Pallas_zero P == P.
Proof. rewrite Pallas_add_comm. apply Pallas_add_zero. Qed.

Lemma Pallas_add_cancel_r (P Q R : GroupProjective) :
  Pallas_add P R == Pallas_add Q R -> P == Q.
Proof.
  intros H.
  rewrite <- (Pallas_add_zero P), <- (Pallas_add_zero Q).
  rewrite <- (Pallas_add_negate R), <- !Pallas_add_assoc, H.
  reflexivity.
Qed.

Lemma Pallas_scale_add (P : GroupProjective) (a b : Z) :
  0 <= a -> 0 <= b ->
  Pallas_scale P (a + b) == Pallas_add (Pallas_scale P a) (Pallas_scale P b).
Proof.
  intros Ha Hb. revert b Hb.
  apply natlike_ind.
  - rewrite Z.add_0_r, Pallas_scale_0, Pallas_add_zero. reflexivity.
  - intros b Hb IH.
    replace (a + Z.succ b) with ((a + b) + 1) by lia.
    replace (Z.succ b) with (b + 1) by lia.
    rewrite !Pallas_scale_succ by lia.
    rewrite IH, Pallas_add_assoc. reflexivity.
Qed.

Lemma Pallas_scale_zero (n : Z) :
  0 <= n -> Pallas_scale Pallas_zero n == Pallas_zero.
Proof.
  revert n. apply natlike_ind.
  - apply Pallas_scale_0.
  - intros n Hn IH.
    replace (Z.succ n) with (n + 1) by lia.
    rewrite Pallas_scale_succ, IH by lia.
    apply Pallas_add_zero.
Qed.

Lemma Pallas_scale_1 (P : GroupProjective) : Pallas_scale P 1 == P.
Proof.
  change 1 with (0 + 1).
  rewrite Pallas_scale_succ, Pallas_scale_0 by lia.
  apply Pallas_zero_add.
Qed.

Lemma Pallas_scale_scale (P : GroupProjective) (a b : Z) :
  0 <= a -> 0 <= b ->
  Pallas_scale (Pallas_scale P a) b == Pallas_scale P (a * b).
Proof.
  intros Ha Hb. revert b Hb.
  apply natlike_ind.
  - rewrite Z.mul_0_r, !Pallas_scale_0. reflexivity.
  - intros b Hb IH.
    replace (Z.succ b) with (b + 1) by lia.
    rewrite Pallas_scale_succ, IH by lia.
    replace (a * (b + 1)) with (a * b + a) by lia.
    rewrite Pallas_scale_add by nia. reflexivity.
Qed.

Lemma Pallas_one_order_mul (c : Z) :
  0 <= c -> Pallas_scale Pallas_one (Scalar_modulus * c) == Pallas_zero.
Proof.
  intros Hc. pose proof Scalar_modulus_pos.
  rewrite <- Pallas_scale_scale by lia.
  rewrite Pallas_one_order. now apply Pallas_scale_zero.
Qed.

Lemma Pallas_scale_one_mod (a : Z) :
  0 <= a ->
  Pallas_scale Pallas_one a == Pallas_scale Pallas_one (a mod Scalar_modulus).
Proof.
  intros Ha. pose proof Scalar_modulus_pos as Hq.
  rewrite (Z.div_mod a Scalar_modulus) at 1 by lia.
  assert (0 <= a / Scalar_modulus) by (apply Z.div_pos; lia).
  assert (0 <= a mod Scalar_modulus) by (apply Z.mod_pos_bound; lia).
  rewrite Pallas_scale_add by nia.
  rewrite Pallas_one_order_mul by assumption.
  apply Pallas_zero_add.
Qed.

Lemma Pallas_one_not_zero : ~ Pallas_one == Pallas_zero.
Proof.
  unfold peq. rewrite generatorMina_one.
  destruct fromProjective_zero as [e ->]. discriminate.
Qed.

Lemma Pallas_one_order_exact (a : Z) :
  0 <= a -> Pallas_scale Pallas_one a == Pallas_zero ->
  a mod Scalar_modulus = 0.
Proof.
  intros Ha Hz. pose proof Scalar_modulus_pos as Hq.
  destruct (Z.eq_dec (a mod Scalar_modulus) 0) as [|Hne]; [assumption |].
  exfalso. apply Pallas_one_not_zero.
  set (a' := a mod Scalar_modulus) in *.
  assert (Ha' : 0 < a' < Scalar_modulus)
    by (pose proof (Z.mod_pos_bound a Scalar_modulus); lia).
  assert (Hrel : Z.coprime Scalar_modulus a').
  { apply Z.coprime_prime_l; [apply Scalar_modulus_prime |].
    intros Hdiv. apply Z.divide_pos_le in Hdiv; lia. }
  destruct (Z.Bezout_coprime _ _ Hrel) as (u & v & Huv).
  set (v' := v mod Scalar_modulus).
  assert (Hv' : 0 <= v' < Scalar_modulus) by (apply Z.mod_pos_bound; lia).
  assert (H1 : (a' * v') mod Scalar_modulus = 1).
  { unfold v'. rewrite Z.mul_mod_idemp_r by lia.
    replace (a' * v) with (1 + (- u) * Scalar_modulus) by lia.
    rewrite Z.mod_add by lia. apply Z.mod_small. lia. }
  rewrite <- (Pallas_scale_1 Pallas_one), <- H1.
  rewrite <- Pallas_scale_one_mod by nia.
  rewrite <- Pallas_scale_scale by lia.
  unfold a'. rewrite <- Pallas_scale_one_mod, Hz by assumption.
  apply Pallas_scale_zero. lia.
Qed.

Lemma Pallas_scale_one_negate (a : Z) :
  0 <= a <= Scalar_modulus ->
  Pallas_scale Pallas_one (Scalar_modulus - a)
  == Pallas_negate (Pallas_scale Pallas_one a).
Proof.
  intros Ha.
  apply Pallas_add_cancel_r with (R := Pallas_scale Pallas_one a).
  rewrite <- Pallas_scale_add by lia.
  replace (Scalar_modulus - a + a) with Scalar_modulus by lia.
  rewrite Pallas_one_order.
  rewrite Pallas_add_comm, Pallas_add_negate. reflexivity.
Qed.

Lemma Pallas_sub_scale (P : GroupProjective) (a b : Z) :
  0 <= a -> 0 <= b ->
  Pallas_sub (Pallas_scale P (a + b)) (Pallas_scale P b) == Pallas_scale P a.
Proof.
  intros Ha Hb.
  rewrite Pallas_sub_add, Pallas_scale_add by assumption.
  rewrite Pallas_add_assoc, Pallas_add_negate.
  apply Pallas_add_zero.
Qed.

(** Scaling the generator in affine form is scaling [Pallas_one]. *)
Lemma Group_scale_generatorMina (n : Z) :
  Group_scale Group_generatorMina n
  = Group_fromProjective (Pallas_scale Pallas_one n).
Proof.
  rewrite Group_scale_spec.
  apply Pallas_scale_proper. unfold peq.
  rewrite generatorMina_one.
  apply fromProjective_toProjective with (P := Pallas_one).
  apply generatorMina_one.
Qed.

(** A scalar that is not a multiple of the order gives an affine point. *)
Lemma Group_scale_generatorMina_Ok (n : Z) :
  0 <= n -> n mod Scalar_modulus <> 0 ->
  exists g, Group_scale Group_generatorMina n = Ok g.
Proof.
  intros Hn Hne. rewrite Group_scale_generatorMina.
  destruct (Group_fromProjective (Pallas_scale Pallas_one n)) as [g | e] eqn:E.
  - now exists g.
  - exfalso. apply Hne. apply Pallas_one_order_exact; [assumption |].
    now apply fromProjective_Throw with (e := e).
Qed.

(** The point [s*G - e*pk] is the commitment [k*G] of the signer, whose
    y-coordinate is even whichever sign [k'] had. *)
Lemma verify_commitment (sk kPrime e : Z) (pk R0 : Group) :
  0 <= sk ->
  Group_scale Group_generatorMina sk = Ok pk ->
  0 < kPrime < Scalar_modulus ->
  Group_scale Group_generatorMina kPrime = Ok R0 ->
  0 <= e ->
  Group_fromProjective
    (Pallas_sub
       (Pallas_scale Pallas_one
          (Scalar_add
             (if Field_isEven (Group_y R0) then kPrime else Scalar_negate kPrime)
             (Scalar_mul e sk)))
       (Pallas_scale (Group_toProjective pk) e))
  = Ok {| Group_x := Group_x R0;
          Group_y := if Field_isEven (Group_y R0)
                     then Group_y R0 else Field_negate (Group_y R0) |}.
Proof.
  intros Hsk Hpk Hk HR0 He.
  pose proof Scalar_modulus_pos as Hq.
  rewrite Group_scale_generatorMina in Hpk, HR0.
  set (k := if Field_isEven (Group_y R0) then kPrime else Scalar_negate kPrime).
  assert (Hk0 : 0 <= k).
  { unfold k, Scalar_negate, Fp_negate.
    destruct (Field_isEven (Group_y R0)), (Z.eqb_spec kPrime 0); lia. }
  assert (HtoP : Group_toProjective pk == Pallas_scale Pallas_one sk).
  { unfold peq. rewrite Hpk.
    now apply fromProjective_toProjective with (P := Pallas_scale Pallas_one sk). }
  assert (HR : Pallas_sub
                 (Pallas_scale Pallas_one (Scalar_add k (Scalar_mul e sk)))
                 (Pallas_scale (Group_toProjective pk) e)
               == Pallas_scale Pallas_one k).
  { rewrite HtoP, Pallas_scale_scale by assumption.
    unfold Scalar_add, Scalar_mul, Fp_add, Fp_mul.
    rewrite Z.add_mod_idemp_r by lia.
    rewrite <- Pallas_scale_one_mod by nia.
    replace (e * sk) with (sk * e) by lia.
    apply Pallas_sub_scale; nia. }
  transitivity (Group_fromProjective (Pallas_scale Pallas_one k));
    [exact HR |].
  unfold k.
  destruct (Field_isEven (Group_y R0)) eqn:Heven.
  - rewrite HR0. destruct R0; reflexivity.
  - unfold Scalar_negate, Fp_negate.
    destruct (Z.eqb_spec kPrime 0); [lia |].
    assert (Hneg : Pallas_scale Pallas_one (Scalar_modulus - kPrime)
                   == Pallas_negate (Pallas_scale Pallas_one kPrime))
      by (apply Pallas_scale_one_negate; lia).
    unfold peq in Hneg. rewrite Hneg.
    now apply fromProjective_negate.
Qed.

Lemma verify_commitment_even (R0 : Group) :
  Field_isEven (if Field_isEven (Group_y R0)
                then Group_y R0 else Field_negate (Group_y R0)) = true.
Proof.
  destruct (Field_isEven (Group_y R0)) eqn:Heven; [assumption |].
  apply Fp_negate_odd_even; [apply Field_modulus_odd | assumption].
Qed.

End CurveTheory.

(** ** Bytes *)

Lemma modify_nth_last (l : list Z) (b : Z) (f : Z -> Z) :
  modify_nth (l ++ [b]) (length l) f = l ++ [f b].
Proof.
  induction l as [| a l IH]; simpl.
  - reflexivity.
  - now rewrite IH.
Qed.

Lemma firstn_nth_last (l : list Z) (n : nat) (d : Z) :
  length l = S n -> l = firstn n l ++ [nth n l d].
Proof.
  revert n. induction l as [| a l IH]; intros n Hlen; simpl in Hlen.
  - discriminate.
  - destruct n as [| n].
    + destruct l; [reflexivity | discriminate].
    + simpl. f_equal. apply IH. lia.
Qed.

Lemma array_modify_last (h : list Z) (n : nat) (f : Z -> Z) :
  length h = S n ->
  array_modify h (Z.of_nat (length h) - 1) f
  = firstn n h ++ [f (nth n h 0)].
Proof.
  intros Hlen. unfold array_modify. rewrite Hlen.
  destruct (Z.ltb_spec (Z.of_nat (S n) - 1) 0) as [Hneg | _]; [lia |].
  replace (Z.to_nat (Z.of_nat (S n) - 1)) with n by lia.
  pose proof (firstn_nth_last h n 0 Hlen) as Hh.
  assert (Hl : length (firstn n h) = n) by (rewrite length_firstn; lia).
  remember (firstn n h) as l eqn:El. remember (nth n h 0) as b eqn:Eb.
  clear El Eb. subst h n.
  apply modify_nth_last.
Qed.

Lemma bytesToBigInt_app (l1 l2 : list Z) :
  bytesToBigInt (l1 ++ l2)
  = bytesToBigInt l1 + 256 ^ Z.of_nat (length l1) * bytesToBigInt l2.
Proof.
  induction l1 as [| b l1 IH].
  - cbn [app bytesToBigInt length]. change (Z.of_nat 0) with 0.
    rewrite Z.pow_0_r. lia.
  - cbn [app bytesToBigInt length]. rewrite IH.
    rewrite Nat2Z.inj_succ, Z.pow_succ_r by lia. ring.
Qed.

Lemma Forall_bytes_firstn (P : Z -> Prop) (n : nat) (l : list Z) :
  Forall P l -> Forall P (firstn n l).
Proof.
  intros H. revert n.
  induction H as [| b l Hb _ IH]; intros [| n]; simpl; auto.
Qed.

Lemma bytesToBigInt_bound (l : list Z) :
  Forall (fun b => 0 <= b < 256) l ->
  0 <= bytesToBigInt l < 256 ^ Z.of_nat (length l).
Proof.
  induction 1 as [| b l Hb _ IH].
  - cbn [bytesToBigInt length]. change (Z.of_nat 0) with 0.
    rewrite Z.pow_0_r. lia.
  - cbn [bytesToBigInt length].
    rewrite Nat2Z.inj_succ, Z.pow_succ_r by lia. lia.
Qed.

(** ** The nonce deriver and the challenge hasher *)

Section Derivations.

Context {B : Backend}.

Lemma Network_id_mainnet (n : Network) :
  String.eqb (Network_id n) "mainnet"
  = match n with Mainnet => true | Testnet => false end.
Proof. destruct n; reflexivity. Qed.

(** The mask hits byte 31 of a 32-byte hash. *)
Lemma deriveNonce_masked (message : HashInput) (publicKey : Group)
  (privateKey : Scalar) (networkId : NetworkId) :
  (forall input, length (blake2b input None 32) = 32%nat) ->
  deriveNonce message publicKey privateKey networkId
  = (d <- Field_fromBits (Scalar_toBits privateKey) ;;
     let id := if String.eqb networkId "mainnet" then 0x01 else 0x00 in
     let input :=
       HashInput_append message
         {| fields := [Group_x publicKey; Group_y publicKey; d];
            packed := [(id, 8)] |} in
     let h := blake2b
                (bitsToBytes (concat (map Field_toBits (packToFields input))))
                None 32 in
     Ok (bytesToBigInt (firstn 31 h ++ [Z.land (nth 31 h 0) 0x3f])
         mod Scalar_modulus)).
Proof.
  intros Hlen. unfold deriveNonce, Scalar_fromBytes. cbv zeta.
  destruct (Field_fromBits (Scalar_toBits privateKey)) as [d | e];
    cbn [bind]; [| reflexivity].
  rewrite (array_modify_last _ 31) by apply Hlen.
  reflexivity.
Qed.

(** [deriveNonce] fails exactly when [Field.fromBits] does, with its
    error. *)
Lemma deriveNonce_Throw (message : HashInput) (publicKey : Group)
  (privateKey : Scalar) (networkId : NetworkId) (e : exn) :
  deriveNonce message publicKey privateKey networkId = Throw e
  <-> Field_fromBits (Scalar_toBits privateKey) = Throw e.
Proof.
  unfold deriveNonce. cbv zeta.
  destruct (Field_fromBits (Scalar_toBits privateKey)) as [d | e'];
    cbn [bind]; split; intros H; try discriminate H; exact H.
Qed.


Lemma hashMessage_Network_id (message : HashInput) (publicKey : Group)
  (r : Field) (n : Network) :
  hashMessage message publicKey r (Network_id n)
  = hashMessage_spec message publicKey r n.
Proof.
  unfold hashMessage, hashMessage_spec.
  rewrite Network_id_mainnet. destruct n; reflexivity.
Qed.

Lemma deriveNonce_not_mainnet (networkId : NetworkId) (message : HashInput)
  (publicKey : Group) (privateKey : Scalar) :
  networkId <> "mainnet"%string ->
  deriveNonce message publicKey privateKey networkId
  = deriveNonce message publicKey privateKey "testnet".
Proof.
  intros Hne. apply String.eqb_neq in Hne.
  unfold deriveNonce. rewrite Hne. reflexivity.
Qed.

Lemma hashMessage_not_mainnet (networkId : NetworkId) (message : HashInput)
  (publicKey : Group) (r : Field) :
  networkId <> "mainnet"%string ->
  hashMessage message publicKey r networkId
  = hashMessage message publicKey r "testnet".
Proof.
  intros Hne. apply String.eqb_neq in Hne.
  unfold hashMessage. rewrite Hne. reflexivity.
Qed.

(** C5: on the two network ids [deriveNonce] computes what the specification
    describes: network code [0x01] for mainnet and [0x00] for testnet, the
    message extended with the fields [[x; y; d]] and the packed pair
    (code, 8), packed to fields, turned into bits and then bytes, hashed to
    32 bytes, byte 31 masked with [0x3f], and the 32 bytes read as an
    unsigned integer modulo the scalar field order. *)
Theorem deriveNonce_refines_spec (message : HashInput) (publicKey : Group)
  (privateKey : Scalar) (n : Network) :
  (forall input, length (blake2b input None 32) = 32%nat) ->
  deriveNonce message publicKey privateKey (Network_id n)
  = deriveNonce_spec message publicKey privateKey n.
Proof.
  intros Hlen.
  rewrite deriveNonce_masked by exact Hlen.
  unfold deriveNonce_spec. cbv zeta.
  rewrite Network_id_mainnet.
  destruct n; reflexivity.
Qed.

(** The masked hash is below [2^254]: when the scalar field order is at
    least [2^254], reading it modulo the order changes nothing. *)
Lemma deriveNonce_spec_no_reduction (message : HashInput) (publicKey : Group)
  (privateKey : Scalar) (n : Network) :
  (forall input, length (blake2b input None 32) = 32%nat) ->
  (forall input, Forall (fun b => 0 <= b < 256) (blake2b input None 32)) ->
  2 ^ 254 <= Scalar_modulus ->
  forall k, deriveNonce_spec message publicKey privateKey n = Ok k ->
  0 <= k < 2 ^ 254.
Proof.
  intros Hlen Hbytes Hq k. unfold deriveNonce_spec.
  destruct (Field_fromBits (Scalar_toBits privateKey)) as [d | e];
    cbn [bind]; [| discriminate].
  intros Hk. apply Ok_inj in Hk. subst k. cbv zeta.
  match goal with
  | |- context [blake2b ?i None 32] =>
      set (h := blake2b i None 32);
      pose proof (Hlen i) as Hl; pose proof (Hbytes i) as Hb;
      fold h in Hl, Hb
  end.
  rewrite bytesToBigInt_app.
  assert (Hf : length (firstn 31 h) = 31%nat) by (rewrite length_firstn; lia).
  rewrite Hf.
  pose proof (bytesToBigInt_bound (firstn 31 h)
                (Forall_bytes_firstn _ 31 h Hb)) as Hlow.
  rewrite Hf in Hlow.
  cbn [bytesToBigInt].
  assert (Hm : 0 <= Z.land (nth 31 h 0) 63 < 64).
  { change 63 with (Z.ones 6). rewrite Z.land_ones by lia.
    apply Z.mod_pos_bound. lia. }
  change (Z.of_nat 31) with 31 in *.
  rewrite Z.mod_small; lia.
Qed.

(** C7: [hashMessage] extends the message with the fields [[x; y; r]], packs
    it, hashes it under the mainnet prefix when the network id is mainnet and
    under the testnet prefix otherwise, and returns the hash output itself:
    the scalar is the same integer as the base-field element, and it is
    already reduced modulo the scalar field order when that order is not
    below the base field order. *)
Theorem hashMessage_refines_spec (message : HashInput) (publicKey : Group)
  (r : Field) :
  (forall n : Network,
     hashMessage message publicKey r (Network_id n)
     = hashMessage_spec message publicKey r n)
  /\ (forall networkId : NetworkId,
        networkId <> "mainnet"%string ->
        hashMessage message publicKey r networkId
        = hashMessage_spec message publicKey r Testnet)
  /\ (forall networkId : NetworkId,
        Field_modulus <= Scalar_modulus ->
        0 <= hashWithPrefix
               (if String.eqb networkId "mainnet"
                then prefixes_signatureMainnet else prefixes_signatureTestnet)
               (packToFields
                  (HashInput_append message
                     {| fields := [Group_x publicKey; Group_y publicKey; r];
                        packed := [] |}))
          < Field_modulus ->
        hashMessage message publicKey r networkId mod Scalar_modulus
        = hashMessage message publicKey r networkId).
Proof.
  split; [| split].
  - apply hashMessage_Network_id.
  - intros networkId Hne. rewrite hashMessage_not_mainnet by exact Hne.
    apply (hashMessage_Network_id _ _ _ Testnet).
  - intros networkId Hpq Hrange. unfold hashMessage.
    apply Z.mod_small. lia.
Qed.

(** C10: a network id other than the string "mainnet" is treated as
    "testnet" by [deriveNonce] (network code [0x00]) and by [hashMessage]
    (testnet prefix); nothing rejects it, so [sign] and [verify] behave as
    on testnet. *)
Theorem networkId_other_is_testnet (networkId : NetworkId)
  (message : HashInput) (publicKey : Group) (privateKey : Scalar) (r : Field)
  (signature : Signature) (pk : PublicKey) :
  networkId <> "mainnet"%string ->
  deriveNonce message publicKey privateKey networkId
  = deriveNonce message publicKey privateKey "testnet"%string
  /\ hashMessage message publicKey r networkId
     = hashMessage_spec message publicKey r Testnet
  /\ ((forall input, length (blake2b input None 32) = 32%nat) ->
      deriveNonce message publicKey privateKey networkId
      = deriveNonce_spec message publicKey privateKey Testnet)
  /\ sign message privateKey networkId = sign message privateKey "testnet"%string
  /\ verify signature message pk networkId
     = verify signature message pk "testnet"%string.
Proof.
  intros Hne.
  pose proof (deriveNonce_not_mainnet networkId) as Hd.
  pose proof (hashMessage_not_mainnet networkId) as Hh.
  repeat split.
  - now apply Hd.
  - rewrite Hh by exact Hne. apply (hashMessage_Network_id _ _ _ Testnet).
  - intros Hlen. rewrite deriveNonce_masked by exact Hlen.
    apply String.eqb_neq in Hne. rewrite Hne. reflexivity.
  - unfold sign.
    destruct (Group_scale Group_generatorMina privateKey) as [g |]; simpl;
      [| reflexivity].
    rewrite Hd by exact Hne.
    destruct (deriveNonce message g privateKey "testnet") as [kPrime |];
      simpl; [| reflexivity].
    destruct (Scalar_equal _ 0); [reflexivity |].
    destruct (Group_scale Group_generatorMina _) as [R0 |]; simpl;
      [| reflexivity].
    rewrite Hh by exact Hne. reflexivity.
  - unfold verify, verify_R.
    destruct (PublicKey_toGroup pk) as [g |]; simpl; [| reflexivity].
    rewrite Hh by exact Hne. reflexivity.
Qed.

End Derivations.

(** ** The verifier *)

Section Verifier.

Context {B : Backend}.

Lemma verify_cases (signature : Signature) (message : HashInput)
  (publicKey : PublicKey) (networkId : NetworkId) (pk : Group) :
  PublicKey_toGroup publicKey = Ok pk ->
  verify signature message publicKey networkId
  = match Group_fromProjective
            (verify_R signature message pk networkId) with
    | Ok P => Ok (Field_isEven (Group_y P)
                  && Field_equal (Group_x P) (Signature_r signature))
    | Throw _ => Ok false
    end.
Proof.
  intros Hpk. unfold verify. rewrite Hpk. cbn [bind]. cbv zeta.
  destruct (Group_fromProjective _); reflexivity.
Qed.

Lemma verify_toGroup_Throw (signature : Signature) (message : HashInput)
  (publicKey : PublicKey) (networkId : NetworkId) (e : exn) :
  PublicKey_toGroup publicKey = Throw e ->
  verify signature message publicKey networkId = Throw e.
Proof.
  intros Hpk. unfold verify. rewrite Hpk. reflexivity.
Qed.

(** C2 as the code has it: [verify] raises exactly when [PublicKey.toGroup],
    which it calls before the [try] block, throws on the public key, and it
    raises that error; for a public key that decompresses to [pk], [verify]
    returns a boolean, and when the point [R = s*G - e*pk] has no affine form
    (the conversion throws inside the [try] block) that boolean is
    [false]. *)
Theorem verify_raises_iff_toGroup_throws (signature : Signature)
  (message : HashInput) (publicKey : PublicKey) (networkId : NetworkId) :
  (forall e,
     verify signature message publicKey networkId = Throw e
     <-> PublicKey_toGroup publicKey = Throw e)
  /\ (forall pk,
        PublicKey_toGroup publicKey = Ok pk ->
        (exists b, verify signature message publicKey networkId = Ok b)
        /\ (forall e,
              Group_fromProjective (verify_R signature message pk networkId)
              = Throw e ->
              verify signature message publicKey networkId = Ok false)).
Proof.
  destruct (PublicKey_toGroup publicKey) as [pk | e0] eqn:Hpk.
  - rewrite (verify_cases _ _ _ _ pk Hpk). split.
    + intros e. split; [| discriminate].
      destruct (Group_fromProjective _); discriminate.
    + intros pk' Hpk'. apply Ok_inj in Hpk'. subst pk'. split.
      * destruct (Group_fromProjective _); eauto.
      * intros e ->. reflexivity.
  - rewrite (verify_toGroup_Throw _ _ _ _ e0 Hpk). split.
    + intros e. split; intros H; congruence.
    + intros pk' Hpk'. discriminate Hpk'.
Qed.

(** C3: [verify] returns [true] exactly when the public key decompresses to
    a point [pk] and the point [R = s*G - e*pk], with [e] the challenge
    recomputed from the message, [pk] and [r], has affine coordinates
    [(rx, ry)] with [ry] even and [rx] equal to [r] in the base field; a
    point with the right [rx] and an odd [ry] is rejected. *)
Theorem verify_true_iff (signature : Signature) (message : HashInput)
  (publicKey : PublicKey) (networkId : NetworkId) :
  let r := Signature_r signature in
  let s := Signature_s signature in
  let R := fun pk : Group =>
    let e := hashMessage message pk r networkId in
    Pallas_sub (Pallas_scale Pallas_one s)
               (Pallas_scale (Group_toProjective pk) e) in
  (verify signature message publicKey networkId = Ok true <->
   exists pk rx ry,
     PublicKey_toGroup publicKey = Ok pk
     /\ Group_fromProjective (R pk) = Ok {| Group_x := rx; Group_y := ry |}
     /\ Field_isEven ry = true /\ Field_equal rx r = true)
  /\ (forall pk rx ry,
        PublicKey_toGroup publicKey = Ok pk ->
        Group_fromProjective (R pk) = Ok {| Group_x := rx; Group_y := ry |} ->
        Field_equal rx r = true -> Field_isEven ry = false ->
        verify signature message publicKey networkId = Ok false).
Proof.
  intros r s R. split; [split |].
  - destruct (PublicKey_toGroup publicKey) as [pk | e0] eqn:Hpk.
    + rewrite (verify_cases _ _ _ _ pk Hpk).
      change (verify_R signature message pk networkId) with (R pk).
      fold r.
      destruct (Group_fromProjective (R pk)) as [[rx ry] | err] eqn:HR;
        [| discriminate].
      cbn [Group_x Group_y]. intros H. apply Ok_inj in H.
      apply andb_true_iff in H. destruct H as [Heven Heq].
      exists pk, rx, ry. auto.
    + rewrite (verify_toGroup_Throw _ _ _ _ e0 Hpk). discriminate.
  - intros (pk & rx & ry & Hpk & HR & Heven & Heq).
    rewrite (verify_cases _ _ _ _ pk Hpk).
    change (verify_R signature message pk networkId) with (R pk).
    rewrite HR. cbn [Group_x Group_y]. fold r.
    now rewrite Heven, Heq.
  - intros pk rx ry Hpk HR _ Hodd.
    rewrite (verify_cases _ _ _ _ pk Hpk).
    change (verify_R signature message pk networkId) with (R pk).
    rewrite HR. cbn [Group_x Group_y].
    now rewrite Hodd.
Qed.

End Verifier.

(** ** The signer *)

Section Signer.

Context {B : Backend}.

Lemma sign_Ok_inv (message : HashInput) (privateKey : PrivateKey)
  (networkId : NetworkId) (signature : Signature) :
  sign message privateKey networkId = Ok signature ->
  exists publicKey kPrime R0,
    Group_scale Group_generatorMina privateKey = Ok publicKey
    /\ deriveNonce message publicKey privateKey networkId = Ok kPrime
    /\ Scalar_equal kPrime 0 = false
    /\ Group_scale Group_generatorMina kPrime = Ok R0
    /\ signature
       = {| Signature_r := Group_x R0;
            Signature_s :=
              Scalar_add
                (if Field_isEven (Group_y R0)
                 then kPrime else Scalar_negate kPrime)
                (Scalar_mul
                   (hashMessage message publicKey (Group_x R0) networkId)
                   privateKey) |}.
Proof.
  unfold sign. cbv zeta. intros H.
  destruct (Group_scale Group_generatorMina privateKey) as [pk | e] eqn:Hpk;
    [| discriminate].
  cbn [bind] in H.
  destruct (deriveNonce message pk privateKey networkId) as [kPrime | e]
    eqn:Hnonce; [| discriminate].
  cbn [bind] in H.
  destruct (Scalar_equal kPrime 0) eqn:Hk; [discriminate |].
  destruct (Group_scale Group_generatorMina kPrime)
    as [R0 | e] eqn:HR0; [| discriminate].
  cbn [bind] in H. apply Ok_inj in H. subst signature.
  exists pk, kPrime, R0. auto.
Qed.

Lemma sign_Throw_inv (message : HashInput) (privateKey : PrivateKey)
  (networkId : NetworkId) (e : exn) :
  sign message privateKey networkId = Throw e ->
  Group_scale Group_generatorMina privateKey = Throw e
  \/ exists publicKey,
       Group_scale Group_generatorMina privateKey = Ok publicKey
       /\ (deriveNonce message publicKey privateKey networkId = Throw e
           \/ exists kPrime,
                deriveNonce message publicKey privateKey networkId = Ok kPrime
                /\ ((Scalar_equal kPrime 0 = true
                     /\ e = Error "sign: derived nonce is 0")
                    \/ (Scalar_equal kPrime 0 = false
                        /\ Group_scale Group_generatorMina kPrime = Throw e))).
Proof.
  unfold sign. cbv zeta. intros H.
  destruct (Group_scale Group_generatorMina privateKey) as [pk | e'] eqn:Hpk.
  - right. exists pk. split; [reflexivity |].
    cbn [bind] in H.
    destruct (deriveNonce message pk privateKey networkId) as [kPrime | e']
      eqn:Hnonce.
    + right. exists kPrime. split; [reflexivity |].
      cbn [bind] in H.
      destruct (Scalar_equal kPrime 0) eqn:Hk.
      * left. split; [reflexivity | congruence].
      * right. split; [reflexivity |].
        destruct (Group_scale Group_generatorMina kPrime)
          as [R0 | e''] eqn:HR0;
          [discriminate | cbn [bind] in H; congruence].
    + left. cbn [bind] in H. congruence.
  - left. cbn [bind] in H. congruence.
Qed.

Lemma deriveNonce_range (message : HashInput) (publicKey : Group)
  (privateKey : Scalar) (networkId : NetworkId) (kPrime : Scalar) :
  0 < Scalar_modulus ->
  deriveNonce message publicKey privateKey networkId = Ok kPrime ->
  0 <= kPrime < Scalar_modulus.
Proof.
  intros Hq. unfold deriveNonce, Scalar_fromBytes. cbv zeta.
  destruct (Field_fromBits (Scalar_toBits privateKey)) as [d | e];
    cbn [bind]; [| discriminate].
  intros H. apply Ok_inj in H. subst kPrime.
  apply Z.mod_pos_bound. assumption.
Qed.

Lemma Scalar_equal_0 (k : Scalar) :
  0 <= k < Scalar_modulus -> (Scalar_equal k 0 = true <-> k = 0).
Proof.
  intros Hk. apply Fp_equal_canonical; lia.
Qed.

Lemma Scalar_equal_0_0 : 0 < Scalar_modulus -> Scalar_equal 0 0 = true.
Proof. intros Hq. apply Scalar_equal_0; lia. Qed.

Lemma Scalar_equal_0_false (k : Scalar) :
  0 <= k < Scalar_modulus -> k <> 0 -> Scalar_equal k 0 = false.
Proof.
  intros Hk Hne. destruct (Scalar_equal k 0) eqn:E; [| reflexivity].
  apply Scalar_equal_0 in E; [contradiction | assumption].
Qed.

End Signer.

(** ** Signing and verifying on a lawful curve *)

Section SignVerify.

Context {B : Backend} {L : BackendLaws B}.

Lemma publicKey_Ok (privateKey : PrivateKey) :
  0 < privateKey < Scalar_modulus ->
  exists publicKey,
    Group_scale Group_generatorMina privateKey = Ok publicKey.
Proof.
  intros Hsk. apply Group_scale_generatorMina_Ok; [lia |].
  rewrite Z.mod_small; lia.
Qed.

(** The public key of a private key survives compression. *)
Lemma publicKey_toGroup (privateKey : PrivateKey) (publicKey : Group) :
  Group_scale Group_generatorMina privateKey = Ok publicKey ->
  PublicKey_toGroup (PublicKey_fromGroup publicKey) = Ok publicKey.
Proof.
  intros Hpk.
  apply toGroup_fromGroup with (P := Pallas_scale Pallas_one privateKey).
  now rewrite <- Group_scale_generatorMina.
Qed.

Lemma commitment_Ok (kPrime : Scalar) :
  0 <= kPrime < Scalar_modulus -> Scalar_equal kPrime 0 = false ->
  0 < kPrime < Scalar_modulus
  /\ exists R0, Group_scale Group_generatorMina kPrime = Ok R0.
Proof.
  intros Hr Hne.
  assert (kPrime <> 0).
  { intros ->. rewrite Scalar_equal_0_0 in Hne by lia. discriminate. }
  split; [lia |].
  apply Group_scale_generatorMina_Ok; [lia |].
  rewrite Z.mod_small; lia.
Qed.

(** What the verifier reconstructs from a signature that [sign] returned. *)
Lemma verify_R_of_sign (message : HashInput) (privateKey : PrivateKey)
  (networkId : NetworkId) (publicKey R0 : Group) (kPrime : Scalar) :
  0 < privateKey < Scalar_modulus ->
  Group_scale Group_generatorMina privateKey = Ok publicKey ->
  0 <= kPrime < Scalar_modulus ->
  Scalar_equal kPrime 0 = false ->
  Group_scale Group_generatorMina kPrime = Ok R0 ->
  Group_fromProjective
    (verify_R
       {| Signature_r := Group_x R0;
          Signature_s :=
            Scalar_add
              (if Field_isEven (Group_y R0)
               then kPrime else Scalar_negate kPrime)
              (Scalar_mul
                 (hashMessage message publicKey (Group_x R0) networkId)
                 privateKey) |}
       message publicKey networkId)
  = Ok {| Group_x := Group_x R0;
          Group_y := if Field_isEven (Group_y R0)
                     then Group_y R0 else Field_negate (Group_y R0) |}.
Proof.
  intros Hsk Hpk Hrange Hk HR0.
  destruct (commitment_Ok _ Hrange Hk) as [Hpos _].
  unfold verify_R. cbn [Signature_r Signature_s].
  apply verify_commitment; try assumption; try lia.
  apply hashWithPrefix_range.
Qed.

(** A signature that [sign] returned verifies against the compressed public
    key. *)
Lemma verify_sign_Ok (message : HashInput) (privateKey : PrivateKey)
  (networkId : NetworkId) (publicKey : Group) (signature : Signature) :
  0 < privateKey < Scalar_modulus ->
  Group_scale Group_generatorMina privateKey = Ok publicKey ->
  sign message privateKey networkId = Ok signature ->
  verify signature message (PublicKey_fromGroup publicKey) networkId
  = Ok true.
Proof.
  intros Hsk Hpk Hsign.
  pose proof Scalar_modulus_pos as Hq.
  assert (Hq0 : 0 < Scalar_modulus) by lia.
  destruct (sign_Ok_inv _ _ _ _ Hsign)
    as (pk' & kPrime & R0 & Hpk' & Hnonce & Hk & HR0 & ->).
  rewrite Hpk in Hpk'. apply Ok_inj in Hpk'. subst pk'.
  pose proof (deriveNonce_range _ _ _ _ _ Hq0 Hnonce) as Hrange.
  rewrite (verify_cases _ _ _ _ publicKey (publicKey_toGroup _ _ Hpk)).
  rewrite (verify_R_of_sign message privateKey networkId publicKey R0 kPrime)
    by assumption.
  cbn [Group_x Group_y Signature_r].
  rewrite verify_commitment_even. unfold Field_equal.
  rewrite Fp_equal_refl. reflexivity.
Qed.

(** [sign] returns when the nonce is derived and is not zero. *)
Lemma sign_returns (message : HashInput) (privateKey : PrivateKey)
  (networkId : NetworkId) (publicKey : Group) (kPrime : Scalar) :
  Group_scale Group_generatorMina privateKey = Ok publicKey ->
  deriveNonce message publicKey privateKey networkId = Ok kPrime ->
  kPrime <> 0 ->
  exists signature, sign message privateKey networkId = Ok signature.
Proof.
  intros Hpk Hnonce Hne.
  pose proof Scalar_modulus_pos as Hq.
  assert (Hq0 : 0 < Scalar_modulus) by lia.
  pose proof (deriveNonce_range _ _ _ _ _ Hq0 Hnonce) as Hrange.
  assert (Hk : Scalar_equal kPrime 0 = false)
    by now apply Scalar_equal_0_false.
  destruct (commitment_Ok _ Hrange Hk) as [_ [R0 HR0]].
  unfold sign. rewrite Hpk. cbn [bind]. rewrite Hnonce. cbn [bind].
  cbv zeta. rewrite Hk, HR0. cbn [bind]. eauto.
Qed.


(** C4: a signature returned by [sign] is [{r := rx; s := (k + e*sk) mod q}]
    where [(rx, ry)] is the generator scaled by the derived nonce [k'],
    [k = k'] when [ry] is even and [k = -k' mod q] otherwise, and [e] is the
    challenge; the point the verifier reconstructs from it and from the
    public key, which survives compression, has the x-coordinate [rx] and an
    even y-coordinate. *)
Theorem sign_canonical_commitment (message : HashInput)
  (privateKey : PrivateKey) (networkId : NetworkId) (signature : Signature) :
  0 < privateKey < Scalar_modulus ->
  sign message privateKey networkId = Ok signature ->
  exists publicKey kPrime rx ry,
    Group_scale Group_generatorMina privateKey = Ok publicKey
    /\ deriveNonce message publicKey privateKey networkId = Ok kPrime
    /\ Group_scale Group_generatorMina kPrime
       = Ok {| Group_x := rx; Group_y := ry |}
    /\ (let k := if Field_isEven ry
                 then kPrime else (- kPrime) mod Scalar_modulus in
        let e := hashMessage message publicKey rx networkId in
        signature
        = {| Signature_r := rx;
             Signature_s := (k + e * privateKey) mod Scalar_modulus |})
    /\ PublicKey_toGroup (PublicKey_fromGroup publicKey) = Ok publicKey
    /\ exists ry',
         Group_fromProjective
           (verify_R signature message publicKey networkId)
         = Ok {| Group_x := rx; Group_y := ry' |}
         /\ Field_isEven ry' = true.
Proof.
  intros Hsk Hsign.
  pose proof Scalar_modulus_pos as Hq.
  destruct (sign_Ok_inv _ _ _ _ Hsign)
    as (pk & kPrime & R0 & Hpk & Hnonce & Hk & HR0 & ->).
  assert (Hq0 : 0 < Scalar_modulus) by lia.
  pose proof (deriveNonce_range _ _ _ _ _ Hq0 Hnonce) as Hrange.
  exists pk, kPrime, (Group_x R0), (Group_y R0).
  split; [exact Hpk |]. split; [exact Hnonce |].
  split; [destruct R0; exact HR0 |]. split; [| split].
  - cbv zeta. f_equal.
    unfold Scalar_add, Scalar_mul, Fp_add, Fp_mul, Scalar_negate.
    rewrite Z.add_mod_idemp_r by lia.
    rewrite Fp_negate_mod by assumption. reflexivity.
  - exact (publicKey_toGroup _ _ Hpk).
  - eexists. split.
    + now apply (verify_R_of_sign _ privateKey).
    + apply verify_commitment_even.
Qed.

(** C6 as the code has it: for a private key [0 < sk < q], [sign] throws in
    two cases and returns a signature in every other.  When [Field.fromBits]
    rejects the bits of the private key, its error leaves [deriveNonce] and
    [sign]; when the derived nonce is zero, [sign] throws the error
    "sign: derived nonce is 0" and returns no signature. *)
Theorem sign_throws_cases (message : HashInput)
  (privateKey : PrivateKey) (networkId : NetworkId) :
  0 < privateKey < Scalar_modulus ->
  exists publicKey,
    Group_scale Group_generatorMina privateKey = Ok publicKey
    /\ (forall e,
          Field_fromBits (Scalar_toBits privateKey) = Throw e ->
          sign message privateKey networkId = Throw e)
    /\ (deriveNonce message publicKey privateKey networkId = Ok 0 ->
        sign message privateKey networkId
        = Throw (Error "sign: derived nonce is 0"))
    /\ (forall e,
          sign message privateKey networkId = Throw e ->
          Field_fromBits (Scalar_toBits privateKey) = Throw e
          \/ (deriveNonce message publicKey privateKey networkId = Ok 0
              /\ e = Error "sign: derived nonce is 0"))
    /\ (forall kPrime,
          deriveNonce message publicKey privateKey networkId = Ok kPrime ->
          kPrime <> 0 ->
          exists signature, sign message privateKey networkId = Ok signature).
Proof.
  intros Hsk.
  pose proof Scalar_modulus_pos as Hq.
  destruct (publicKey_Ok privateKey Hsk) as [publicKey Hpk].
  exists publicKey. split; [exact Hpk |].
  assert (Hq0 : 0 < Scalar_modulus) by lia.
  split; [| split; [| split]].
  - intros e He. unfold sign. rewrite Hpk. cbn [bind].
    apply (deriveNonce_Throw message publicKey privateKey networkId) in He.
    rewrite He. reflexivity.
  - intros H0. unfold sign. rewrite Hpk. cbn [bind]. rewrite H0. cbn [bind].
    rewrite Scalar_equal_0_0 by assumption. reflexivity.
  - intros e He.
    destruct (sign_Throw_inv _ _ _ _ He) as [Hthrow | (pk' & Hpk' & Hcase)];
      [congruence |].
    rewrite Hpk in Hpk'. apply Ok_inj in Hpk'. subst pk'.
    destruct Hcase as [Hthrow | (kPrime & Hnonce & Hcase)].
    + left. now apply deriveNonce_Throw in Hthrow.
    + pose proof (deriveNonce_range _ _ _ _ _ Hq0 Hnonce) as Hrange.
      destruct Hcase as [[Hk ->] | [Hk Hthrow]].
      * right. split; [| reflexivity].
        apply Scalar_equal_0 in Hk; [| assumption]. now subst kPrime.
      * destruct (commitment_Ok _ Hrange Hk) as [_ [R0 HR0]]. congruence.
  - intros kPrime Hnonce Hne. now apply (sign_returns _ _ _ publicKey kPrime).
Qed.

End SignVerify.

(** ** The small backend obeys the laws *)

Module SmallLaws.

Import Small.

Lemma point_eqb_eq (P Q : point) : point_eqb P Q = true -> P = Q.
Proof.
  destruct P as [[x1 y1] |], Q as [[x2 y2] |]; simpl; try discriminate;
    [| reflexivity].
  rewrite andb_true_iff, !Z.eqb_eq. intros [-> ->]. reflexivity.
Qed.

Lemma on_curve_norm (P : point) : on_curve (norm P) = true.
Proof.
  unfold norm. destruct (on_curve P) eqn:E; [exact E | reflexivity].
Qed.

Lemma norm_on_curve (P : point) : on_curve P = true -> norm P = P.
Proof. unfold norm. now intros ->. Qed.

Lemma norm_norm (P : point) : norm (norm P) = norm P.
Proof. apply norm_on_curve, on_curve_norm. Qed.

(** Every multiple of the generator is a point of the curve. *)
Lemma on_curve_multiple (k : Z) : 0 <= k < q -> on_curve (multiple k) = true.
Proof.
  revert k. apply (forallb_Z_range (fun k => on_curve (multiple k)) 43).
  vm_compute. reflexivity.
Qed.

Lemma norm_multiple (k : Z) : 0 <= k < q -> norm (multiple k) = multiple k.
Proof. intros Hk. now apply norm_on_curve, on_curve_multiple. Qed.

(** Every point of the curve is a multiple of the generator. *)
Lemma multiple_log (x y : Z) :
  on_curve (Some (x, y)) = true ->
  0 <= log (Some (x, y)) < q /\ multiple (log (Some (x, y))) = Some (x, y).
Proof.
  intros Hon.
  assert (Hr : (0 <= x < 31) /\ (0 <= y < 31)).
  { unfold on_curve, p in Hon. rewrite !andb_true_iff in Hon.
    destruct Hon as [[[[H1 H2] H3] H4] _].
    apply Z.leb_le in H1, H3. apply Z.ltb_lt in H2, H4. lia. }
  destruct Hr as [Hx Hy].
  pose (check := fun x y =>
    implb (on_curve (Some (x, y)))
      ((0 <=? log (Some (x, y))) && (log (Some (x, y)) <? q)
       && point_eqb (multiple (log (Some (x, y)))) (Some (x, y)))).
  assert (Hall : forallb (fun x => forallb (check x) (Z_range 31)) (Z_range 31)
                 = true) by (vm_compute; reflexivity).
  pose proof (forallb_Z_range _ 31 Hall x Hx) as Hrow. cbv beta in Hrow.
  pose proof (forallb_Z_range _ 31 Hrow y Hy) as Hxy.
  unfold check in Hxy. rewrite Hon in Hxy. cbn [implb] in Hxy.
  rewrite !andb_true_iff in Hxy. destruct Hxy as [[H1 H2] H3].
  apply point_eqb_eq in H3. apply Z.leb_le in H1. apply Z.ltb_lt in H2.
  split; [lia | exact H3].
Qed.

Lemma rep_exists (P : point) : exists k, rep P k.
Proof.
  pose proof (on_curve_norm P) as Hon. unfold rep.
  destruct (norm P) as [[x y] |].
  - exists (log (Some (x, y))).
    destruct (multiple_log x y Hon) as [Hr Hm]. now rewrite Hm.
  - exists 0. split; [unfold q; lia | reflexivity].
Qed.

Lemma add_points_multiple (i j : Z) :
  0 <= i < q -> 0 <= j < q ->
  add_points (multiple i) (multiple j) = multiple ((i + j) mod q).
Proof.
  intros Hi Hj.
  pose (check := fun i j =>
    point_eqb (add_points (multiple i) (multiple j))
              (multiple ((i + j) mod q))).
  assert (Hall : forallb (fun i => forallb (check i) (Z_range 43)) (Z_range 43)
                 = true) by (vm_compute; reflexivity).
  pose proof (forallb_Z_range _ 43 Hall i Hi) as Hrow. cbv beta in Hrow.
  pose proof (forallb_Z_range _ 43 Hrow j Hj) as Hij.
  now apply point_eqb_eq.
Qed.

Lemma negate_point_multiple (i : Z) :
  0 <= i < q -> negate_point (multiple i) = multiple ((- i) mod q).
Proof.
  intros Hi. apply point_eqb_eq. revert i Hi.
  apply (forallb_Z_range
           (fun i => point_eqb (negate_point (multiple i))
                               (multiple ((- i) mod q))) 43).
  vm_compute. reflexivity.
Qed.

Lemma mod_q_range (a : Z) : 0 <= a mod q < q.
Proof. apply Z.mod_pos_bound. reflexivity. Qed.

Lemma rep_multiple (k : Z) : 0 <= k < q -> rep (multiple k) k.
Proof. intros Hk. split; [assumption | now apply norm_multiple]. Qed.

Lemma rep_add (P Q : point) (i j : Z) :
  rep P i -> rep Q j -> rep (add P Q) ((i + j) mod q).
Proof.
  intros [Hi HP] [Hj HQ]. unfold add. rewrite HP, HQ.
  rewrite add_points_multiple by assumption.
  apply rep_multiple, mod_q_range.
Qed.

Lemma rep_negate (P : point) (i : Z) :
  rep P i -> rep (negate P) ((- i) mod q).
Proof.
  intros [Hi HP]. unfold negate. rewrite HP.
  rewrite negate_point_multiple by assumption.
  apply rep_multiple, mod_q_range.
Qed.

Lemma scale_pos_multiple (i : Z) (n : positive) :
  0 <= i < q -> scale_pos (multiple i) n = multiple ((i * Zpos n) mod q).
Proof.
  intros Hi. induction n as [n IH | n IH |]; cbn [scale_pos].
  - rewrite IH.
    rewrite !add_points_multiple by (try apply mod_q_range; assumption).
    f_equal. rewrite Pos2Z.inj_xI.
    rewrite <- Z.add_mod by (unfold q; lia).
    rewrite Z.add_mod_idemp_l by (unfold q; lia).
    f_equal. lia.
  - rewrite IH.
    rewrite add_points_multiple by apply mod_q_range.
    f_equal. rewrite Pos2Z.inj_xO.
    rewrite <- Z.add_mod by (unfold q; lia).
    f_equal. lia.
  - rewrite Z.mul_1_r, Z.mod_small by assumption. reflexivity.
Qed.

Lemma rep_scale (P : point) (i n : Z) :
  rep P i -> 0 <= n -> rep (scale P n) ((i * n) mod q).
Proof.
  intros [Hi HP] Hn. unfold scale. rewrite HP.
  destruct n as [| n | n]; [| | lia]; cbn [scale_point].
  - rewrite Z.mul_0_r. apply (rep_multiple 0). unfold q. lia.
  - rewrite scale_pos_multiple by assumption.
    apply rep_multiple, mod_q_range.
Qed.

Lemma fromProjective_norm (P Q : point) :
  norm P = norm Q -> fromProjective P = fromProjective Q.
Proof. unfold fromProjective. now intros ->. Qed.

Lemma fromProjective_inj (P Q : point) :
  fromProjective P = fromProjective Q -> norm P = norm Q.
Proof.
  unfold fromProjective.
  destruct (norm P) as [[x1 y1] |], (norm Q) as [[x2 y2] |];
    congruence.
Qed.

Lemma rep_peq (P Q : point) (i j : Z) :
  rep P i -> rep Q j -> i mod q = j mod q ->
  fromProjective P = fromProjective Q.
Proof.
  intros [Hi HP] [Hj HQ] Hij. apply fromProjective_norm.
  rewrite !Z.mod_small in Hij by assumption. congruence.
Qed.

Ltac reps P i H := destruct (rep_exists P) as [i H].

Lemma add_proper (P P' Q Q' : point) :
  fromProjective P = fromProjective P' ->
  fromProjective Q = fromProjective Q' ->
  fromProjective (add P Q) = fromProjective (add P' Q').
Proof.
  intros HP HQ. apply fromProjective_inj in HP, HQ.
  unfold add. now rewrite HP, HQ.
Qed.

Lemma negate_proper (P P' : point) :
  fromProjective P = fromProjective P' ->
  fromProjective (negate P) = fromProjective (negate P').
Proof.
  intros HP. apply fromProjective_inj in HP. unfold negate. now rewrite HP.
Qed.

Lemma scale_proper (P P' : point) (n : Z) :
  fromProjective P = fromProjective P' ->
  fromProjective (scale P n) = fromProjective (scale P' n).
Proof.
  intros HP. apply fromProjective_inj in HP. unfold scale. now rewrite HP.
Qed.

Lemma add_assoc (P Q R : point) :
  fromProjective (add (add P Q) R) = fromProjective (add P (add Q R)).
Proof.
  reps P i HP. reps Q j HQ. reps R k HR.
  eapply rep_peq; [repeat apply rep_add; eassumption ..|].
  rewrite Z.add_mod_idemp_l, Z.add_mod_idemp_r by (unfold q; lia).
  do 2 f_equal. lia.
Qed.

Lemma add_comm (P Q : point) :
  fromProjective (add P Q) = fromProjective (add Q P).
Proof.
  reps P i HP. reps Q j HQ.
  eapply rep_peq; [apply rep_add; eassumption ..|].
  do 2 f_equal. lia.
Qed.

Lemma rep_zero : rep None 0.
Proof. split; [unfold q; lia | reflexivity]. Qed.

Lemma add_zero (P : point) : fromProjective (add P None) = fromProjective P.
Proof.
  reps P i HP.
  eapply rep_peq; [apply rep_add; [eassumption | apply rep_zero]
                  | eassumption |].
  rewrite Z.add_0_r. apply Z.mod_mod. unfold q. lia.
Qed.

Lemma add_negate (P : point) :
  fromProjective (add P (negate P)) = fromProjective None.
Proof.
  reps P i HP.
  eapply rep_peq;
    [apply rep_add; [eassumption | apply rep_negate; eassumption]
    | apply rep_zero |].
  rewrite Z.add_mod_idemp_r by (unfold q; lia).
  replace (i + - i) with 0 by lia. reflexivity.
Qed.

Lemma scale_0 (P : point) : fromProjective (scale P 0) = fromProjective None.
Proof. reflexivity. Qed.

Lemma scale_succ (P : point) (n : Z) :
  0 <= n ->
  fromProjective (scale P (n + 1)) = fromProjective (add (scale P n) P).
Proof.
  intros Hn. reps P i HP.
  eapply rep_peq;
    [apply rep_scale; [eassumption | lia]
    | apply rep_add; [apply rep_scale; eassumption | eassumption] |].
  rewrite Z.add_mod_idemp_l by (unfold q; lia).
  do 2 f_equal. lia.
Qed.

Lemma rep_one : rep one 1.
Proof. split; [unfold q; lia | reflexivity]. Qed.

Lemma one_order : fromProjective (scale one q) = fromProjective None.
Proof.
  eapply rep_peq;
    [apply rep_scale; [apply rep_one | unfold q; lia] | apply rep_zero |].
  reflexivity.
Qed.

Lemma fromProjective_Throw_zero (P : point) (e : exn) :
  fromProjective P = Throw e -> fromProjective P = fromProjective None.
Proof.
  unfold fromProjective.
  destruct (norm P) as [[x y] |]; [discriminate | reflexivity].
Qed.

Lemma fromProjective_Ok (P : point) (g : Group) :
  fromProjective P = Ok g -> norm P = Some (Group_x g, Group_y g).
Proof.
  unfold fromProjective.
  destruct (norm P) as [[x y] |]; [| discriminate].
  intros H. injection H as <-. reflexivity.
Qed.

Lemma fromProjective_toProjective_Ok (P : point) (g : Group) :
  fromProjective P = Ok g -> fromProjective (toProjective g) = Ok g.
Proof.
  intros H. rewrite <- H. apply fromProjective_norm.
  apply fromProjective_Ok in H. unfold toProjective.
  rewrite <- H. apply norm_norm.
Qed.

Lemma fromProjective_negate_Ok (P : point) (g : Group) :
  fromProjective P = Ok g ->
  fromProjective (negate P)
  = Ok {| Group_x := Group_x g; Group_y := Fp_negate p (Group_y g) |}.
Proof.
  intros H. apply fromProjective_Ok in H.
  reps P i HP. pose proof (rep_negate P i HP) as [Hr Hn].
  destruct HP as [Hi HP].
  unfold fromProjective. rewrite Hn.
  rewrite <- negate_point_multiple, <- HP, H by assumption.
  reflexivity.
Qed.

Lemma toGroup_fromGroup_Ok (P : point) (g : Group) :
  fromProjective P = Ok g -> toGroup (fromGroup g) = Ok g.
Proof.
  intros H. apply fromProjective_Ok in H.
  reps P i HP. destruct HP as [Hi HP]. rewrite HP in H.
  pose (check := fun k =>
    match multiple k with
    | None => true
    | Some (x, y) =>
        match toGroup (fromGroup {| Group_x := x; Group_y := y |}) with
        | Ok g' => (Group_x g' =? x) && (Group_y g' =? y)
        | Throw _ => false
        end
    end).
  assert (Hall : forallb check (Z_range 43) = true)
    by (vm_compute; reflexivity).
  pose proof (forallb_Z_range _ 43 Hall i Hi) as Hk.
  unfold check in Hk. rewrite H in Hk.
  destruct g as [x y]. cbn [Group_x Group_y] in Hk.
  destruct (toGroup (fromGroup {| Group_x := x; Group_y := y |}))
    as [[x' y'] | e]; [| discriminate].
  cbn [Group_x Group_y] in Hk.
  apply andb_true_iff in Hk. destruct Hk as [Hx Hy].
  apply Z.eqb_eq in Hx, Hy. congruence.
Qed.

Lemma fold_hash_range (prefix : string) (xs : list Field) :
  0 <= fold_hash prefix xs < p.
Proof.
  unfold fold_hash.
  assert (H0 : 0 <= string_sum prefix mod p < p)
    by (apply Z.mod_pos_bound; reflexivity).
  revert H0. generalize (string_sum prefix mod p).
  induction xs as [| x xs IH]; intros acc Hacc; cbn [fold_left].
  - exact Hacc.
  - apply IH. apply Z.mod_pos_bound. reflexivity.
Qed.

Lemma q_prime : Z.prime q.
Proof.
  split; [unfold q; lia |].
  intros n Hn Hdiv.
  apply Z.mod_divide in Hdiv; [| lia].
  assert (Hall : forallb (fun n => (n <=? 1) || negb (q mod n =? 0))
                   (Z_range 43) = true) by (vm_compute; reflexivity).
  pose proof (forallb_Z_range _ 43 Hall n ltac:(unfold q in Hn; lia)) as H.
  cbv beta in H. rewrite Hdiv in H.
  destruct (Z.leb_spec n 1); [lia | discriminate].
Qed.

(** The curve [y^2 = x^3 + 3] over the field with 31 elements, with its
    generator [(1, 2)] of order 43, obeys the laws. *)
Lemma laws : BackendLaws Small.backend.
Proof.
  split.
  - reflexivity.
  - exact q_prime.
  - exact add_proper.
  - exact negate_proper.
  - exact scale_proper.
  - exact add_assoc.
  - exact add_comm.
  - exact add_zero.
  - exact add_negate.
  - intros P Q. reflexivity.
  - exact scale_0.
  - exact scale_succ.
  - exact one_order.
  - eexists. reflexivity.
  - exact fromProjective_Throw_zero.
  - reflexivity.
  - exact fromProjective_toProjective_Ok.
  - exact fromProjective_negate_Ok.
  - intros g n. reflexivity.
  - exact toGroup_fromGroup_Ok.
  - exact fold_hash_range.
Qed.

(** The laws do not mention the byte hash. *)
Lemma laws_zero_hash : BackendLaws Small.backend_zero_hash.
Proof.
  split.
  - reflexivity.
  - exact q_prime.
  - exact add_proper.
  - exact negate_proper.
  - exact scale_proper.
  - exact add_assoc.
  - exact add_comm.
  - exact add_zero.
  - exact add_negate.
  - intros P Q. reflexivity.
  - exact scale_0.
  - exact scale_succ.
  - exact one_order.
  - eexists. reflexivity.
  - exact fromProjective_Throw_zero.
  - reflexivity.
  - exact fromProjective_toProjective_Ok.
  - exact fromProjective_negate_Ok.
  - intros g n. reflexivity.
  - exact toGroup_fromGroup_Ok.
  - exact fold_hash_range.
Qed.

End SmallLaws.

(** ** The theorems at work on the small backend

    The message is the single field element 7, the private key is 3 and the
    public key is [3 * (1, 2) = (22, 24)]. *)

Section OnSmallBackend.

#[local] Existing Instance Small.backend.


Lemma verify_raises_iff_toGroup_throws_witness :
  PublicKey_toGroup {| PublicKey_x := 22; PublicKey_isOdd := false |}
  = Ok {| Group_x := 22; Group_y := 24 |}
  /\ Group_fromProjective
       (verify_R {| Signature_r := 5; Signature_s := 36 |}
          {| fields := [7]; packed := [] |}
          {| Group_x := 22; Group_y := 24 |} "testnet")
     = Throw (Error "Group.fromProjective: point is infinity")
  /\ verify {| Signature_r := 5; Signature_s := 36 |}
       {| fields := [7]; packed := [] |}
       {| PublicKey_x := 22; PublicKey_isOdd := false |} "testnet"
     = Ok false
  /\ PublicKey_toGroup {| PublicKey_x := 0; PublicKey_isOdd := false |}
     = Throw (Error "PublicKey.toGroup: not a valid group element")
  /\ verify {| Signature_r := 5; Signature_s := 42 |}
       {| fields := [7]; packed := [] |}
       {| PublicKey_x := 0; PublicKey_isOdd := false |} "testnet"
     = Throw (Error "PublicKey.toGroup: not a valid group element").
Proof.
  split; [vm_compute; reflexivity |].
  split; [vm_compute; reflexivity |].
  split; [| split; [vm_compute; reflexivity |]].
  - apply (proj2 (proj2 (@verify_raises_iff_toGroup_throws Small.backend
                           {| Signature_r := 5; Signature_s := 36 |}
                           {| fields := [7]; packed := [] |}
                           {| PublicKey_x := 22; PublicKey_isOdd := false |}
                           "testnet")
                    {| Group_x := 22; Group_y := 24 |} eq_refl)
             (Error "Group.fromProjective: point is infinity")).
    vm_compute. reflexivity.
  - apply (proj1 (@verify_raises_iff_toGroup_throws Small.backend
                    {| Signature_r := 5; Signature_s := 42 |}
                    {| fields := [7]; packed := [] |}
                    {| PublicKey_x := 0; PublicKey_isOdd := false |}
                    "testnet")).
    vm_compute. reflexivity.
Defined.

Lemma verify_true_iff_witness :
  verify {| Signature_r := 5; Signature_s := 42 |}
    {| fields := [7]; packed := [] |}
    {| PublicKey_x := 22; PublicKey_isOdd := false |} "testnet" = Ok true
  /\ verify {| Signature_r := 5; Signature_s := 30 |}
       {| fields := [7]; packed := [] |}
       {| PublicKey_x := 22; PublicKey_isOdd := false |} "testnet" = Ok false.
Proof.
  split.
  - apply (proj1 (@verify_true_iff Small.backend
                    {| Signature_r := 5; Signature_s := 42 |}
                    {| fields := [7]; packed := [] |}
                    {| PublicKey_x := 22; PublicKey_isOdd := false |}
                    "testnet")).
    exists {| Group_x := 22; Group_y := 24 |}, 5, 2.
    vm_compute. repeat split; reflexivity.
  - apply (proj2 (@verify_true_iff Small.backend
                    {| Signature_r := 5; Signature_s := 30 |}
                    {| fields := [7]; packed := [] |}
                    {| PublicKey_x := 22; PublicKey_isOdd := false |}
                    "testnet") {| Group_x := 22; Group_y := 24 |} 5 29);
      vm_compute; reflexivity.
Defined.

Lemma sign_canonical_commitment_witness :
  0 < 3 < 43
  /\ sign {| fields := [7]; packed := [] |} 3 "testnet"
     = Ok {| Signature_r := 5; Signature_s := 42 |}
  /\ exists publicKey kPrime rx ry,
       Group_scale Group_generatorMina 3 = Ok publicKey
       /\ deriveNonce {| fields := [7]; packed := [] |} publicKey 3 "testnet"
          = Ok kPrime
       /\ Group_scale Group_generatorMina kPrime
          = Ok {| Group_x := rx; Group_y := ry |}
       /\ (let k := if Field_isEven ry then kPrime else (- kPrime) mod 43 in
           let e := hashMessage
                      {| fields := [7]; packed := [] |} publicKey rx
                      "testnet" in
           {| Signature_r := 5; Signature_s := 42 |}
           = {| Signature_r := rx; Signature_s := (k + e * 3) mod 43 |})
       /\ PublicKey_toGroup (PublicKey_fromGroup publicKey) = Ok publicKey
       /\ exists ry',
            Group_fromProjective
              (verify_R {| Signature_r := 5; Signature_s := 42 |}
                 {| fields := [7]; packed := [] |} publicKey "testnet")
            = Ok {| Group_x := rx; Group_y := ry' |}
            /\ Field_isEven ry' = true.
Proof.
  split; [lia |]. split; [vm_compute; reflexivity |].
  apply (@sign_canonical_commitment Small.backend SmallLaws.laws
           {| fields := [7]; packed := [] |} 3 "testnet"
           {| Signature_r := 5; Signature_s := 42 |}).
  - vm_compute. split; reflexivity.
  - vm_compute. reflexivity.
Defined.

Lemma deriveNonce_refines_spec_witness :
  (forall input, length (Small.byte_hash input None 32) = 32%nat)
  /\ deriveNonce {| fields := [7]; packed := [] |}
       {| Group_x := 22; Group_y := 24 |} 3 "mainnet"
     = deriveNonce_spec {| fields := [7]; packed := [] |}
         {| Group_x := 22; Group_y := 24 |} 3 Mainnet.
Proof.
  split; [intros input; reflexivity |].
  apply (@deriveNonce_refines_spec Small.backend
           {| fields := [7]; packed := [] |}
           {| Group_x := 22; Group_y := 24 |} 3 Mainnet).
  intros input. reflexivity.
Defined.

Lemma hashMessage_refines_spec_witness :
  31 <= 43
  /\ 0 <= hashMessage_spec {| fields := [7]; packed := [] |}
            {| Group_x := 22; Group_y := 24 |} 5 Testnet < 31
  /\ hashMessage {| fields := [7]; packed := [] |}
       {| Group_x := 22; Group_y := 24 |} 5 "testnet" mod 43
     = hashMessage {| fields := [7]; packed := [] |}
         {| Group_x := 22; Group_y := 24 |} 5 "testnet".
Proof.
  split; [lia |]. split; [vm_compute; split; [discriminate | reflexivity] |].
  change 43 with (@Scalar_modulus Small.backend).
  apply (proj2 (proj2 (hashMessage_refines_spec
                         {| fields := [7]; packed := [] |}
                         {| Group_x := 22; Group_y := 24 |} 5))
           "testnet"%string).
  - vm_compute. discriminate.
  - vm_compute. split; [discriminate | reflexivity].
Defined.

Lemma networkId_other_is_testnet_witness :
  "devnet"%string <> "mainnet"%string
  /\ sign {| fields := [7]; packed := [] |} 3 "devnet"
     = sign {| fields := [7]; packed := [] |} 3 "testnet".
Proof.
  split; [discriminate |].
  apply (@networkId_other_is_testnet Small.backend "devnet"
           {| fields := [7]; packed := [] |}
           {| Group_x := 22; Group_y := 24 |} 3 5
           {| Signature_r := 5; Signature_s := 42 |}
           {| PublicKey_x := 22; PublicKey_isOdd := false |}).
  discriminate.
Defined.

(** The three outcomes of [sign]: the key 3 signs; the key 35 is a scalar
    but not an element of the base field, whose modulus is 31, and
    [Field.fromBits] rejects it; with a byte hash that returns zeros the key
    3 derives the nonce zero. *)
Lemma sign_throws_cases_witness :
  0 < 3 < 43 /\ 0 < 35 < 43
  /\ (exists signature,
        sign {| fields := [7]; packed := [] |} 3 "testnet" = Ok signature)
  /\ sign {| fields := [7]; packed := [] |} 35 "testnet"
     = Throw (Error "Field: inputs larger than the modulus are not allowed")
  /\ @sign Small.backend_zero_hash {| fields := [7]; packed := [] |} 3
       "testnet"
     = Throw (Error "sign: derived nonce is 0").
Proof.
  split; [lia |]. split; [lia |].
  split; [| split].
  - destruct (@sign_throws_cases Small.backend SmallLaws.laws
                {| fields := [7]; packed := [] |} 3 "testnet")
      as (publicKey & Hpk & _ & _ & _ & Hreturns).
    { vm_compute. split; reflexivity. }
    vm_compute in Hpk. apply Ok_inj in Hpk. subst publicKey.
    apply (Hreturns 37).
    + vm_compute. reflexivity.
    + discriminate.
  - destruct (@sign_throws_cases Small.backend SmallLaws.laws
                {| fields := [7]; packed := [] |} 35 "testnet")
      as (publicKey & _ & Hfield & _).
    { vm_compute. split; reflexivity. }
    apply Hfield. vm_compute. reflexivity.
  - destruct (@sign_throws_cases Small.backend_zero_hash
                SmallLaws.laws_zero_hash
                {| fields := [7]; packed := [] |} 3 "testnet")
      as (publicKey & Hpk & _ & Hzero & _).
    { vm_compute. split; reflexivity. }
    vm_compute in Hpk. apply Ok_inj in Hpk. subst publicKey.
    apply Hzero. vm_compute. reflexivity.
Defined.

End OnSmallBackend.

(** C2, where the code differs: 0 is not the x-coordinate of a point of the
    small curve (3 is not a square modulo 31), [PublicKey.toGroup] throws on
    it, and [verify] lets that error through instead of returning a
    boolean. *)
Lemma verify_raises_off_curve :
  @verify Small.backend {| Signature_r := 5; Signature_s := 42 |}
    {| fields := [7]; packed := [] |}
    {| PublicKey_x := 0; PublicKey_isOdd := false |} "testnet"
  = Throw (Error "PublicKey.toGroup: not a valid group element")
  /\ ~ (exists b,
          @verify Small.backend {| Signature_r := 5; Signature_s := 42 |}
            {| fields := [7]; packed := [] |}
            {| PublicKey_x := 0; PublicKey_isOdd := false |} "testnet"
          = Ok b).
Proof.
  assert (H : @verify Small.backend {| Signature_r := 5; Signature_s := 42 |}
                {| fields := [7]; packed := [] |}
                {| PublicKey_x := 0; PublicKey_isOdd := false |} "testnet"
              = Throw (Error "PublicKey.toGroup: not a valid group element"))
    by (vm_compute; reflexivity).
  split; [exact H |].
  intros [b Hb]. rewrite H in Hb. discriminate.
Qed.

(** C6, where the code differs.  With a byte hash that returns zeros the
    derived nonce is zero, and [sign] does not return a value that stands for
    the failure: it throws.  And the zero nonce is not the only failure of
    [sign] on a key [0 < sk < q]: on the small backend the key 35 is below
    the scalar modulus 43 but not below the base field modulus 31,
    [Field.fromBits] rejects it, and [sign] throws that error. *)
Lemma sign_zero_nonce_is_thrown :
  @deriveNonce Small.backend_zero_hash {| fields := [7]; packed := [] |}
    {| Group_x := 22; Group_y := 24 |} 3 "testnet" = Ok 0
  /\ @Group_scale Small.backend_zero_hash
       (@Group_generatorMina Small.backend_zero_hash) 3
     = Ok {| Group_x := 22; Group_y := 24 |}
  /\ @sign Small.backend_zero_hash {| fields := [7]; packed := [] |} 3
       "testnet"
     = Throw (Error "sign: derived nonce is 0")
  /\ ~ (exists returned,
          @sign Small.backend_zero_hash {| fields := [7]; packed := [] |} 3
            "testnet" = Ok returned)
  /\ 0 < 35 < @Scalar_modulus Small.backend
  /\ @sign Small.backend {| fields := [7]; packed := [] |} 35 "testnet"
     = Throw (Error "Field: inputs larger than the modulus are not allowed").
Proof.
  assert (H : @sign Small.backend_zero_hash
                {| fields := [7]; packed := [] |} 3 "testnet"
              = Throw (Error "sign: derived nonce is 0"))
    by (vm_compute; reflexivity).
  split; [vm_compute; reflexivity |].
  split; [vm_compute; reflexivity |].
  split; [exact H |].
  split; [intros [returned Hr]; rewrite H in Hr; discriminate |].
  split; [vm_compute; split; reflexivity |].
  vm_compute. reflexivity.
Qed.

(** ** Digits *)

Section Digits.

Variable base : Z.
Hypothesis base_gt_1 : 1 < base.

Lemma fromDigits_app (l1 l2 : list Z) :
  fromDigits base (l1 ++ l2)
  = fromDigits base l1 + base ^ Z.of_nat (length l1) * fromDigits base l2.
Proof.
  induction l1 as [| d l1 IH].
  - cbn [app fromDigits length]. change (Z.of_nat 0) with 0.
    rewrite Z.pow_0_r. lia.
  - cbn [app fromDigits length]. rewrite IH.
    rewrite Nat2Z.inj_succ, Z.pow_succ_r by lia. ring.
Qed.

Lemma fromDigits_zeros (z : nat) : fromDigits base (repeat 0 z) = 0.
Proof.
  induction z as [| z IH]; cbn [repeat fromDigits]; [reflexivity |].
  rewrite IH. lia.
Qed.

Lemma fromDigits_app_zeros (l : list Z) (z : nat) :
  fromDigits base (l ++ repeat 0 z) = fromDigits base l.
Proof. rewrite fromDigits_app, fromDigits_zeros. lia. Qed.

Lemma fromDigits_nonneg (l : list Z) :
  digits_in_range base l -> 0 <= fromDigits base l.
Proof.
  induction 1 as [| d l Hd _ IH]; cbn [fromDigits]; nia.
Qed.

Lemma fromDigits_pos (l : list Z) :
  digits_in_range base l -> l <> [] -> canonical l -> 0 < fromDigits base l.
Proof.
  unfold canonical.
  induction 1 as [| d l Hd Hl IH]; intros Hne Hc; [contradiction |].
  cbn [fromDigits]. destruct l as [| d' l'].
  - cbn [last fromDigits] in *. lia.
  - assert (0 < fromDigits base (d' :: l')) by (apply IH; [discriminate | exact Hc]).
    nia.
Qed.

Lemma toDigits_fuel_0 (fuel : nat) : toDigits_fuel fuel base 0 = [].
Proof. destruct fuel; reflexivity. Qed.

Lemma div_base_lt (n : Z) (fuel : nat) :
  0 < n < 2 ^ Z.of_nat (S fuel) -> 0 <= n / base < 2 ^ Z.of_nat fuel.
Proof.
  intros Hn. rewrite Nat2Z.inj_succ, Z.pow_succ_r in Hn by lia.
  split; [apply Z.div_pos; lia |].
  apply Z.div_lt_upper_bound; [lia |].
  assert (0 < 2 ^ Z.of_nat fuel) by (apply Z.pow_pos_nonneg; lia).
  nia.
Qed.

(** With enough fuel the digits written are those of [n]. *)
Lemma toDigits_fuel_spec (fuel : nat) (n : Z) :
  0 <= n < 2 ^ Z.of_nat fuel ->
  fromDigits base (toDigits_fuel fuel base n) = n
  /\ digits_in_range base (toDigits_fuel fuel base n)
  /\ canonical (toDigits_fuel fuel base n).
Proof.
  revert n. induction fuel as [| fuel IH]; intros n Hn.
  - change (Z.of_nat 0) with 0 in Hn. rewrite Z.pow_0_r in Hn.
    assert (n = 0) by lia. subst n. cbn [toDigits_fuel fromDigits].
    repeat split; [constructor | unfold canonical; cbn; lia].
  - cbn [toDigits_fuel]. destruct (Z.leb_spec n 0) as [Hle | Hpos].
    + assert (n = 0) by lia. subst n. cbn [fromDigits].
      repeat split; [constructor | unfold canonical; cbn; lia].
    + destruct (IH (n / base) (div_base_lt n fuel ltac:(lia)))
        as (Hval & Hrange & Hcanon).
      cbn [fromDigits]. rewrite Hval. repeat split.
      * symmetry. rewrite Z.add_comm. apply Z.div_mod. lia.
      * constructor; [apply Z.mod_pos_bound; lia | exact Hrange].
      * unfold canonical in *.
        destruct (toDigits_fuel fuel base (n / base)) as [| d' l'] eqn:E.
        -- cbn [last]. cbn [fromDigits] in Hval.
           pose proof (Z.div_mod n base ltac:(lia)). lia.
        -- exact Hcanon.
Qed.

Lemma log2_fuel (n : Z) : 0 <= n -> n < 2 ^ Z.of_nat (S (Z.to_nat (Z.log2 n))).
Proof.
  intros Hn. rewrite Nat2Z.inj_succ, Z2Nat.id by apply Z.log2_nonneg.
  destruct (Z.eq_dec n 0) as [-> | Hne].
  - cbn. lia.
  - apply Z.log2_spec. lia.
Qed.

Lemma toDigits_spec (n : Z) :
  0 <= n ->
  fromDigits base (toDigits base n) = n
  /\ digits_in_range base (toDigits base n)
  /\ canonical (toDigits base n).
Proof.
  intros Hn. apply toDigits_fuel_spec. split; [assumption |].
  now apply log2_fuel.
Qed.

(** Canonical digits are the ones written back from their number. *)
Lemma toDigits_fuel_fromDigits (l : list Z) :
  digits_in_range base l -> canonical l ->
  forall fuel, fromDigits base l < 2 ^ Z.of_nat fuel ->
  toDigits_fuel fuel base (fromDigits base l) = l.
Proof.
  induction 1 as [| d l Hd Hl IH]; intros Hc fuel Hfuel.
  - apply toDigits_fuel_0.
  - assert (Hpos : 0 < fromDigits base (d :: l)).
    { apply fromDigits_pos; [now constructor | discriminate | exact Hc]. }
    destruct fuel as [| fuel].
    { change (Z.of_nat 0) with 0 in Hfuel. rewrite Z.pow_0_r in Hfuel. lia. }
    cbn [toDigits_fuel]. destruct (Z.leb_spec (fromDigits base (d :: l)) 0);
      [lia |].
    pose proof (div_base_lt _ fuel (conj Hpos Hfuel)) as Hdiv.
    cbn [fromDigits] in *.
    assert (Hq : (d + base * fromDigits base l) / base = fromDigits base l).
    { rewrite Z.mul_comm, Z.div_add by lia.
      rewrite Z.div_small by lia. lia. }
    assert (Hr : (d + base * fromDigits base l) mod base = d).
    { rewrite Z.mul_comm, Z.mod_add by lia. apply Z.mod_small. lia. }
    rewrite Hq, Hr. f_equal.
    rewrite Hq in Hdiv. apply IH; [| lia].
    unfold canonical in *. destruct l; [cbn; lia | exact Hc].
Qed.

Lemma toDigits_fromDigits (l : list Z) :
  digits_in_range base l -> canonical l ->
  toDigits base (fromDigits base l) = l.
Proof.
  intros Hr Hc. apply toDigits_fuel_fromDigits; try assumption.
  apply log2_fuel. now apply fromDigits_nonneg.
Qed.

End Digits.

(** ** Base 58 *)

Lemma last_rev (l : list Z) (d : Z) : last (rev l) d = hd d l.
Proof.
  destruct l as [| a l]; [reflexivity |].
  cbn [rev hd]. apply last_last.
Qed.

Lemma hd_rev (l : list Z) (d : Z) : hd d (rev l) = last l d.
Proof.
  rewrite <- (rev_involutive l) at 2. now rewrite last_rev.
Qed.

Lemma Forall_zeros (P : Z -> Prop) (z : nat) : P 0 -> Forall P (repeat 0 z).
Proof. intros H0. induction z; cbn [repeat]; auto. Qed.

Lemma rev_zeros (z : nat) : rev (repeat 0 z) = repeat 0 z.
Proof.
  induction z as [| z IH]; [reflexivity |].
  cbn [repeat rev]. rewrite IH.
  clear IH. induction z as [| z IH]; [reflexivity |].
  cbn [repeat app]. now rewrite IH.
Qed.

(** A list is its leading zeros followed by a rest that starts otherwise. *)
Lemma leadingZeros_split (l : list Z) :
  exists rest,
    l = repeat 0 (leadingZeros l) ++ rest /\ hd 1 rest <> 0.
Proof.
  induction l as [| d l (rest & Hl & Hhd)].
  - exists []. split; [reflexivity | cbn; lia].
  - cbn [leadingZeros]. destruct (Z.eqb_spec d 0) as [-> | Hne].
    + exists rest. cbn [repeat app]. split; [now rewrite <- Hl | exact Hhd].
    + exists (d :: l). split; [reflexivity | exact Hne].
Qed.

Lemma leadingZeros_app (z : nat) (rest : list Z) :
  hd 1 rest <> 0 -> leadingZeros (repeat 0 z ++ rest) = z.
Proof.
  intros Hhd. induction z as [| z IH].
  - destruct rest as [| d rest]; [reflexivity |].
    cbn [repeat app leadingZeros hd] in *.
    destruct (Z.eqb_spec d 0); [contradiction | reflexivity].
  - cbn [repeat app leadingZeros]. now rewrite IH.
Qed.

(** Writing digits in another base and reading them back. *)
Lemma changeBase_round_trip (base newBase : Z) (l : list Z) :
  1 < base -> 1 < newBase ->
  digits_in_range base l ->
  let z := leadingZeros l in
  let out := repeat 0 z ++ rev (changeBase (rev l) base newBase) in
  digits_in_range newBase out
  /\ repeat 0 (leadingZeros out) ++ rev (changeBase (rev out) newBase base)
     = l.
Proof.
  intros Hb Hnb Hl z out.
  destruct (leadingZeros_split l) as (rest & Hsplit & Hhd). fold z in Hsplit.
  assert (Hrest : digits_in_range base rest).
  { unfold digits_in_range in *. rewrite Hsplit in Hl.
    now apply Forall_app in Hl. }
  assert (Hval : fromDigits base (rev l) = fromDigits base (rev rest)).
  { rewrite Hsplit at 1. rewrite rev_app_distr, rev_zeros.
    apply fromDigits_app_zeros. }
  assert (Hn : 0 <= fromDigits base (rev rest)).
  { apply fromDigits_nonneg; [assumption |]. now apply Forall_rev. }
  destruct (toDigits_spec newBase Hnb _ Hn) as (Hv & Hr & Hc).
  set (D := toDigits newBase (fromDigits base (rev rest))) in *.
  assert (Hout : out = repeat 0 z ++ rev D).
  { unfold out, changeBase. now rewrite Hval. }
  split.
  - rewrite Hout. apply Forall_app. split.
    + apply Forall_zeros. lia.
    + now apply Forall_rev.
  - rewrite Hout.
    rewrite leadingZeros_app by (rewrite hd_rev; exact Hc).
    unfold changeBase.
    rewrite rev_app_distr, rev_involutive, rev_zeros, fromDigits_app_zeros.
    rewrite Hv, toDigits_fromDigits; try assumption.
    + rewrite rev_involutive. now symmetry.
    + now apply Forall_rev.
    + unfold canonical. rewrite last_rev. exact Hhd.
Qed.

Lemma charToDigit_digitToChar (d : Z) :
  0 <= d < 58 -> charToDigit (digitToChar d) = Some d.
Proof.
  intros Hd.
  pose (check := fun d =>
    match charToDigit (digitToChar d) with
    | Some d' => d' =? d
    | None => false
    end).
  assert (Hall : forallb check (Z_range 58) = true)
    by (vm_compute; reflexivity).
  pose proof (forallb_Z_range check 58 Hall d Hd) as H. unfold check in H.
  destruct (charToDigit (digitToChar d)) as [d' |]; [| discriminate].
  apply Z.eqb_eq in H. now subst.
Qed.

Lemma charsToDigits_digitToChar (ds : list Z) :
  digits_in_range 58 ds -> charsToDigits (map digitToChar ds) = Ok ds.
Proof.
  induction 1 as [| d ds Hd _ IH]; [reflexivity |].
  cbn [map charsToDigits].
  now rewrite charToDigit_digitToChar, IH.
Qed.

(** Modelled base58: decoding an encoding gives the bytes back. *)
Lemma fromBase58_toBase58 (bytes : list Z) :
  Forall is_byte bytes -> fromBase58 (toBase58 bytes) = Ok bytes.
Proof.
  intros Hbytes. unfold fromBase58, toBase58.
  destruct (changeBase_round_trip 256 58 bytes ltac:(lia) ltac:(lia) Hbytes)
    as [Hrange Hback].
  rewrite list_ascii_of_string_of_list_ascii.
  rewrite charsToDigits_digitToChar by exact Hrange.
  cbn [bind]. now rewrite Hback.
Qed.

(** ** The binary form *)

Lemma arrayEqual_eq (a b : list Z) : arrayEqual a b = true <-> a = b.
Proof.
  revert b. induction a as [| x a IH]; intros [| y b]; cbn [arrayEqual];
    try (split; [discriminate | discriminate]); [tauto |].
  rewrite andb_true_iff, Z.eqb_eq, IH. split.
  - intros [-> ->]. reflexivity.
  - intros H. injection H as -> ->. tauto.
Qed.

Lemma bigIntToBytes_length (x : Z) (n : nat) :
  length (bigIntToBytes x n) = n.
Proof.
  revert x. induction n as [| n IH]; intros x; cbn [bigIntToBytes length];
    [reflexivity | now rewrite IH].
Qed.

Lemma bigIntToBytes_bytes (x : Z) (n : nat) :
  Forall is_byte (bigIntToBytes x n).
Proof.
  revert x. induction n as [| n IH]; intros x; cbn [bigIntToBytes];
    constructor; [apply Z.mod_pos_bound; lia | apply IH].
Qed.

Lemma bytesToBigInt_bigIntToBytes (x : Z) (n : nat) :
  0 <= x < 256 ^ Z.of_nat n -> bytesToBigInt (bigIntToBytes x n) = x.
Proof.
  revert x. induction n as [| n IH]; intros x Hx.
  - change (Z.of_nat 0) with 0 in Hx. rewrite Z.pow_0_r in Hx.
    cbn [bigIntToBytes bytesToBigInt]. lia.
  - rewrite Nat2Z.inj_succ, Z.pow_succ_r in Hx by lia.
    cbn [bigIntToBytes bytesToBigInt]. rewrite IH.
    + symmetry. rewrite Z.add_comm. apply Z.div_mod. lia.
    + split; [apply Z.div_pos; lia |].
      apply Z.div_lt_upper_bound; lia.
Qed.

(** The reader undoes the writer on an element of the field that fits its
    bytes. *)
Lemma readBytes_BinableBigint (x : Z) (n : nat) (modulus : Z)
  (rest : list Z) :
  0 <= x < 256 ^ Z.of_nat n -> x < modulus ->
  readBytes (BinableBigint n modulus)
    (toBytes (BinableBigint n modulus) x ++ rest)
  = Ok (x, rest).
Proof.
  intros Hx Hm. cbn [readBytes toBytes BinableBigint]. cbv zeta.
  pose proof (bigIntToBytes_length x n) as Hlen.
  rewrite firstn_app, skipn_app, Hlen, Nat.sub_diag.
  rewrite firstn_all2, skipn_all2 by lia.
  cbn [firstn skipn]. rewrite app_nil_r. cbn [app].
  rewrite bytesToBigInt_bigIntToBytes by exact Hx.
  destruct (Z.ltb_spec x modulus); [reflexivity | lia].
Qed.

Lemma readBytes_BinableBigint_nil (x : Z) (n : nat) (modulus : Z) :
  0 <= x < 256 ^ Z.of_nat n -> x < modulus ->
  readBytes (BinableBigint n modulus) (toBytes (BinableBigint n modulus) x)
  = Ok (x, []).
Proof.
  intros Hx Hm.
  rewrite <- (app_nil_r (toBytes (BinableBigint n modulus) x)).
  now apply readBytes_BinableBigint.
Qed.

Section CodecTheory.

Context {B : Backend} {C : CodecParams}.

Lemma BinableSignature_round_trip (r : Field) (s : Scalar) :
  0 <= r < 2 ^ 256 -> r < Field_modulus ->
  0 <= s < 2 ^ 256 -> s < Scalar_modulus ->
  fromBytes BinableSignature (toBytes BinableSignature (r, s)) = Ok (r, s).
Proof.
  intros Hr Hrp Hs Hsq. unfold fromBytes, BinableSignature.
  cbn [readBytes toBytes withVersionNumber tuple fst snd skipn].
  unfold Field_binable, Scalar_binable.
  rewrite readBytes_BinableBigint by assumption.
  cbn [bind fst snd].
  rewrite readBytes_BinableBigint_nil by assumption.
  reflexivity.
Qed.

Lemma BinableSignature_bytes (r : Field) (s : Scalar) :
  is_byte versionNumbers_signature ->
  Forall is_byte (toBytes BinableSignature (r, s)).
Proof.
  intros Hv. unfold BinableSignature.
  cbn [toBytes withVersionNumber tuple fst snd Field_binable Scalar_binable
       BinableBigint].
  constructor; [exact Hv |].
  apply Forall_app. split; apply bigIntToBytes_bytes.
Qed.

(** Modelled base58-check: decoding an encoding gives the payload back. *)
Lemma fromBase58Check_toBase58Check (input : list Z) (versionByte : Z) :
  (forall bytes, length (computeChecksum bytes) = 4%nat) ->
  (forall bytes, Forall is_byte (computeChecksum bytes)) ->
  is_byte versionByte -> Forall is_byte input ->
  fromBase58Check (toBase58Check input versionByte) versionByte = Ok input.
Proof.
  intros Hlen Hsum Hv Hin. unfold fromBase58Check, toBase58Check.
  cbv zeta.
  rewrite fromBase58_toBase58.
  2:{ apply Forall_app. split; [constructor; assumption | apply Hsum]. }
  cbn [bind].
  set (withVersion := versionByte :: input).
  assert (Hl : (length (withVersion ++ computeChecksum withVersion) - 4
                = length withVersion)%nat)
    by (rewrite length_app, Hlen; lia).
  rewrite Hl.
  rewrite firstn_app, skipn_app, Nat.sub_diag.
  rewrite firstn_all2, skipn_all2 by lia.
  cbn [firstn skipn app]. rewrite app_nil_r.
  rewrite (proj2 (arrayEqual_eq _ _) eq_refl). cbn [negb].
  unfold withVersion. now rewrite Z.eqb_refl.
Qed.

(** The text of a signature with [r] in the base field and [s] in the scalar
    field, both on 32 bytes, reads back as that signature. *)
Lemma Signature_round_trip (signature : Signature) :
  (forall bytes, length (computeChecksum bytes) = 4%nat) ->
  (forall bytes, Forall is_byte (computeChecksum bytes)) ->
  is_byte versionBytes_signature -> is_byte versionNumbers_signature ->
  0 <= Signature_r signature < 2 ^ 256 ->
  Signature_r signature < Field_modulus ->
  0 <= Signature_s signature < 2 ^ 256 ->
  Signature_s signature < Scalar_modulus ->
  Signature_fromBase58 (Signature_toBase58 signature) = Ok signature.
Proof.
  intros Hlen Hsum Hvb Hvn Hr Hrp Hs Hsq.
  unfold Signature_fromBase58, Signature_toBase58, BinableBase58.
  cbn [Base58_fromBase58 Base58_toBase58 base58].
  rewrite fromBase58Check_toBase58Check; try assumption.
  2:{ now apply BinableSignature_bytes. }
  cbn [bind]. rewrite BinableSignature_round_trip by assumption.
  cbn [bind fst snd]. now destruct signature.
Qed.

End CodecTheory.

(** C8, where the code differs: the text "2Kh5SXE3V" is the base58-check
    form, with the version byte 154 of a signature and a valid checksum, of
    the one-byte payload [[1]]: six bytes instead of the 70 of a signature.
    [Signature.fromBase58] does not fail on it: the reader steps over the
    version number, finds no byte left for [r] nor for [s], reads both as
    zero, and returns the signature [{r := 0; s := 0}], whose own text is
    another one. *)
Theorem Signature_fromBase58_short_input :
  fromBase58 "2Kh5SXE3V" = Ok [154; 1; 201; 12; 81; 36]
  /\ @fromBase58Check codec_Mina "2Kh5SXE3V" 154 = Ok [1]
  /\ @Signature_fromBase58 backend_Pallas_order codec_Mina "2Kh5SXE3V"
     = Ok {| Signature_r := 0; Signature_s := 0 |}
  /\ @Signature_toBase58 backend_Pallas_order codec_Mina
       {| Signature_r := 0; Signature_s := 0 |}
     <> "2Kh5SXE3V"%string.
Proof.
  split; [vm_compute; reflexivity |].
  split; [vm_compute; reflexivity |].
  split; [vm_compute; reflexivity |].
  vm_compute. discriminate.
Qed.

(* ================================================================== *)
(** * More of signature.ts *)

(** ** How the verifier's point depends on [s] *)

Section VerifierAlgebra.

Context {B : Backend} {L : BackendLaws B}.

Local Infix "==" := peq (at level 70, no associativity).

#[local] Existing Instance peq_Equivalence.
#[local] Existing Instance Pallas_add_Proper.
#[local] Existing Instance Pallas_negate_Proper.
#[local] Existing Instance Pallas_scale_Proper.
#[local] Existing Instance Pallas_sub_Proper.



(** The decompressed public key of [sk] is [sk] times the generator. *)
Lemma publicKey_toProjective (sk : Z) (pk : Group) :
  Group_scale Group_generatorMina sk = Ok pk ->
  PublicKey_toGroup (PublicKey_fromGroup pk) = Ok pk
  /\ Group_toProjective pk == Pallas_scale Pallas_one sk.
Proof.
  intros Hpk. rewrite Group_scale_generatorMina in Hpk. split.
  - now apply toGroup_fromGroup with (P := Pallas_scale Pallas_one sk).
  - unfold peq. rewrite Hpk.
    now apply fromProjective_toProjective
      with (P := Pallas_scale Pallas_one sk).
Qed.

(** For the key pair of [sk], the verifier's point of [(r, s)] is [k] times
    the generator whenever [s = k + e * sk] modulo the order. *)
Lemma verify_R_peq (message : HashInput) (networkId : NetworkId)
  (sk r s k : Z) (pk : Group) :
  0 <= sk ->
  Group_scale Group_generatorMina sk = Ok pk ->
  0 <= s -> 0 <= k ->
  s mod Scalar_modulus
  = (k + hashMessage message pk r networkId * sk) mod Scalar_modulus ->
  verify_R {| Signature_r := r; Signature_s := s |} message pk networkId
  == Pallas_scale Pallas_one k.
Proof.
  intros Hsk Hpk Hs Hk Hmod.
  destruct (publicKey_toProjective sk pk Hpk) as [Hto HtoP].
  unfold verify_R. cbn [Signature_r Signature_s].
  assert (He : 0 <= hashMessage message pk r networkId)
    by apply hashWithPrefix_range.
  set (e := hashMessage message pk r networkId) in *.
  rewrite HtoP, Pallas_scale_scale by assumption.
  rewrite (Pallas_scale_one_mod s), Hmod by assumption.
  rewrite <- Pallas_scale_one_mod by nia.
  replace (e * sk) with (sk * e) by lia.
  apply Pallas_sub_scale; nia.
Qed.

(** The commitment of the signer after the choice of sign. *)
Lemma commitment_canonical (kPrime : Z) (R0 : Group) :
  0 < kPrime < Scalar_modulus ->
  Group_scale Group_generatorMina kPrime = Ok R0 ->
  let k := if Field_isEven (Group_y R0)
           then kPrime else Scalar_negate kPrime in
  0 < k < Scalar_modulus
  /\ Group_fromProjective (Pallas_scale Pallas_one k)
     = Ok {| Group_x := Group_x R0;
             Group_y := if Field_isEven (Group_y R0)
                        then Group_y R0 else Field_negate (Group_y R0) |}.
Proof.
  intros Hk HR0. cbv zeta.
  rewrite Group_scale_generatorMina in HR0.
  destruct (Field_isEven (Group_y R0)).
  - split; [assumption |]. rewrite HR0. now destruct R0.
  - unfold Scalar_negate, Fp_negate.
    destruct (Z.eqb_spec kPrime 0); [lia |]. split; [lia |].
    assert (Hneg : Pallas_scale Pallas_one (Scalar_modulus - kPrime)
                   == Pallas_negate (Pallas_scale Pallas_one kPrime))
      by (apply Pallas_scale_one_negate; lia).
    unfold peq in Hneg. rewrite Hneg.
    now apply fromProjective_negate.
Qed.

(** On a group of odd order no multiple of the generator has [y = 0]. *)
Lemma commitment_y_nonzero (k : Z) (g : Group) :
  2 < Scalar_modulus -> 0 < k < Scalar_modulus ->
  Group_fromProjective (Pallas_scale Pallas_one k) = Ok g ->
  Group_y g <> 0.
Proof.
  intros Hq2 Hk Hg Hy.
  assert (Hself : Pallas_negate (Pallas_scale Pallas_one k)
                  == Pallas_scale Pallas_one k).
  { unfold peq. rewrite (fromProjective_negate _ _ Hg), Hg, Hy.
    destruct g as [x y]. cbn [Group_x Group_y] in *. subst y.
    reflexivity. }
  assert (Hz : Pallas_scale Pallas_one (k + k) == Pallas_zero).
  { rewrite Pallas_scale_add by lia.
    rewrite <- Hself at 2. apply Pallas_add_negate. }
  apply Pallas_one_order_exact in Hz; [| lia].
  apply Z.mod_divide in Hz; [| lia].
  replace (k + k) with (k * 2) in Hz by lia.
  apply Z.gauss in Hz.
  - apply Z.divide_pos_le in Hz; lia.
  - apply Z.coprime_prime_l; [apply Scalar_modulus_prime |].
    intros Hdiv. apply Z.divide_pos_le in Hdiv; lia.
Qed.

End VerifierAlgebra.


(** ** The nonce is below [2^254] *)

Section NonceBound.

Context {B : Backend}.

(** X1: with a byte hash that returns 32 bytes and a scalar field order of
    at least [2^254], the nonce [deriveNonce] returns is the little-endian
    integer of the hash output with the top two bits of byte 31 dropped: it
    is below [2^254] and reading it as a scalar reduces nothing. *)
Theorem deriveNonce_below_2_254 (message : HashInput) (publicKey : Group)
  (privateKey : Scalar) (networkId : NetworkId) :
  (forall input, length (blake2b input None 32) = 32%nat) ->
  (forall input, Forall is_byte (blake2b input None 32)) ->
  2 ^ 254 <= Scalar_modulus ->
  deriveNonce message publicKey privateKey networkId
  = (d <- Field_fromBits (Scalar_toBits privateKey) ;;
     let id := if String.eqb networkId "mainnet" then 0x01 else 0x00 in
     let input :=
       HashInput_append message
         {| fields := [Group_x publicKey; Group_y publicKey; d];
            packed := [(id, 8)] |} in
     let h := blake2b
                (bitsToBytes (concat (map Field_toBits (packToFields input))))
                None 32 in
     Ok (bytesToBigInt (firstn 31 h) + 2 ^ 248 * Z.land (nth 31 h 0) 0x3f))
  /\ (forall kPrime,
        deriveNonce message publicKey privateKey networkId = Ok kPrime ->
        0 <= kPrime < 2 ^ 254).
Proof.
  intros Hlen Hbytes Hq.
  rewrite deriveNonce_masked by exact Hlen.
  destruct (Field_fromBits (Scalar_toBits privateKey)) as [d | e];
    cbn [bind]; [| split; [reflexivity | discriminate]].
  cbv zeta.
  set (id := if String.eqb networkId "mainnet" then 1 else 0).
  set (input := HashInput_append message
                  {| fields := [Group_x publicKey; Group_y publicKey; d];
                     packed := [(id, 8)] |}).
  set (h := blake2b
              (bitsToBytes (concat (map Field_toBits (packToFields input))))
              None 32).
  pose proof (Hlen (bitsToBytes
                      (concat (map Field_toBits (packToFields input)))))
    as Hl.
  pose proof (Hbytes (bitsToBytes
                        (concat (map Field_toBits (packToFields input)))))
    as Hb.
  fold h in Hl, Hb.
  rewrite bytesToBigInt_app.
  assert (Hf : length (firstn 31 h) = 31%nat) by (rewrite length_firstn; lia).
  rewrite Hf.
  pose proof (bytesToBigInt_bound (firstn 31 h)
                (Forall_bytes_firstn _ 31 h Hb)) as Hlow.
  rewrite Hf in Hlow. cbn [bytesToBigInt].
  assert (Hm : 0 <= Z.land (nth 31 h 0) 63 < 64).
  { change 63 with (Z.ones 6). rewrite Z.land_ones by lia.
    apply Z.mod_pos_bound. lia. }
  change (Z.of_nat 31) with 31 in *.
  change (256 ^ 31) with (2 ^ 248) in *.
  rewrite Z.mul_0_r, Z.add_0_r.
  rewrite Z.mod_small by lia. split; [reflexivity |].
  intros kPrime HkPrime. apply Ok_inj in HkPrime. lia.
Qed.

End NonceBound.

(** ** Edge cases of signing and verifying *)

Section SignVerifyEdges.

Context {B : Backend} {L : BackendLaws B}.

#[local] Existing Instance peq_Equivalence.
#[local] Existing Instance Pallas_add_Proper.
#[local] Existing Instance Pallas_negate_Proper.
#[local] Existing Instance Pallas_scale_Proper.
#[local] Existing Instance Pallas_sub_Proper.

(** X2: with a private key that is a multiple of the group order (zero in
    particular) [sign] throws before a nonce is derived: scaling the
    generator gives infinity, and the error is the one of that conversion. *)
Theorem sign_zero_key_throws (message : HashInput) (privateKey : PrivateKey)
  (networkId : NetworkId) :
  0 <= privateKey -> privateKey mod Scalar_modulus = 0 ->
  exists e,
    Group_scale Group_generatorMina privateKey = Throw e
    /\ Group_fromProjective Pallas_zero = Throw e
    /\ sign message privateKey networkId = Throw e.
Proof.
  intros Hsk Hmod.
  destruct fromProjective_zero as [e He]. exists e.
  assert (Hscale : Group_scale Group_generatorMina privateKey = Throw e).
  { rewrite Group_scale_generatorMina, <- He.
    transitivity (Group_fromProjective
                    (Pallas_scale Pallas_one (privateKey mod Scalar_modulus))).
    - now apply Pallas_scale_one_mod.
    - rewrite Hmod. apply Pallas_scale_0. }
  split; [exact Hscale |]. split; [exact He |].
  unfold sign. rewrite Hscale. reflexivity.
Qed.

(** X3: [verify] reads [s] modulo the group order only: two signatures with
    the same [r] and with [s] values that agree modulo the order get the
    same answer, so [s + q] is accepted whenever [s] is. *)
Theorem verify_s_modulo_order (r : Field) (s1 s2 : Scalar)
  (message : HashInput) (publicKey : PublicKey) (networkId : NetworkId) :
  0 <= s1 -> 0 <= s2 ->
  s1 mod Scalar_modulus = s2 mod Scalar_modulus ->
  verify {| Signature_r := r; Signature_s := s1 |} message publicKey networkId
  = verify {| Signature_r := r; Signature_s := s2 |} message publicKey
      networkId.
Proof.
  intros H1 H2 Hmod.
  destruct (PublicKey_toGroup publicKey) as [pk | e] eqn:Hpk;
    [| now rewrite !(verify_toGroup_Throw _ _ _ _ e Hpk)].
  rewrite !(verify_cases _ _ _ _ pk Hpk). cbn [Signature_r].
  assert (HR : Group_fromProjective
                 (verify_R {| Signature_r := r; Signature_s := s1 |}
                    message pk networkId)
               = Group_fromProjective
                   (verify_R {| Signature_r := r; Signature_s := s2 |}
                      message pk networkId)).
  { assert (Hs : peq (Pallas_scale Pallas_one s1)
                       (Pallas_scale Pallas_one s2)).
    { transitivity (Pallas_scale Pallas_one (s1 mod Scalar_modulus)).
      - now apply Pallas_scale_one_mod.
      - rewrite Hmod. symmetry. now apply Pallas_scale_one_mod. }
    unfold verify_R. cbn [Signature_r Signature_s].
    apply Pallas_sub_Proper; [exact Hs | reflexivity]. }
  now rewrite HR.
Qed.


(** X5: the twin of a signature that [sign] returned, with [s] replaced by
    [(2 * e * sk - s) mod q], stands for the opposite commitment: it has the
    same [r] and an odd y-coordinate, and [verify] rejects it (on a group of
    odd order). *)
Theorem verify_rejects_twin (message : HashInput) (privateKey : PrivateKey)
  (networkId : NetworkId) (publicKey : Group) (signature : Signature) :
  0 < privateKey < Scalar_modulus -> 2 < Scalar_modulus ->
  Group_scale Group_generatorMina privateKey = Ok publicKey ->
  sign message privateKey networkId = Ok signature ->
  let r := Signature_r signature in
  let e := hashMessage message publicKey r networkId in
  verify {| Signature_r := r;
            Signature_s := (2 * e * privateKey - Signature_s signature)
                           mod Scalar_modulus |}
    message (PublicKey_fromGroup publicKey) networkId
  = Ok false.
Proof.
  intros Hsk Hq2 Hpk Hsign r e.
  destruct (sign_Ok_inv _ _ _ _ Hsign)
    as (pk' & kPrime & R0 & Hpk' & Hnonce & Hk & HR0 & Hsig).
  rewrite Hpk in Hpk'. apply Ok_inj in Hpk'. subst pk'.
  assert (Hq0 : 0 < Scalar_modulus) by lia.
  pose proof (deriveNonce_range _ _ _ _ _ Hq0 Hnonce) as Hrange.
  destruct (commitment_Ok _ Hrange Hk) as [Hpos _].
  destruct (commitment_canonical _ R0 Hpos HR0) as [Hkr Hkg].
  set (k := if Field_isEven (Group_y R0)
            then kPrime else Scalar_negate kPrime) in *.
  change (0 < k < Scalar_modulus) in Hkr.
  change (Group_fromProjective (Pallas_scale Pallas_one k)
          = Ok {| Group_x := Group_x R0;
                  Group_y := if Field_isEven (Group_y R0)
                             then Group_y R0
                             else Field_negate (Group_y R0) |}) in Hkg.
  assert (Hr : r = Group_x R0) by (unfold r; rewrite Hsig; reflexivity).
  assert (Hs : Signature_s signature
               = (k + e * privateKey) mod Scalar_modulus).
  { unfold e. rewrite Hr, Hsig. cbn [Signature_s].
    unfold Scalar_add, Scalar_mul, Fp_add, Fp_mul.
    apply Z.add_mod_idemp_r. lia. }
  set (s' := (2 * e * privateKey - Signature_s signature)
             mod Scalar_modulus).
  assert (Hs' : s' mod Scalar_modulus
                = (Scalar_modulus - k + e * privateKey) mod Scalar_modulus).
  { unfold s'. rewrite Z.mod_mod, Hs, Zminus_mod_idemp_r by lia.
    replace (2 * e * privateKey - (k + e * privateKey))
      with (Scalar_modulus - k + e * privateKey + (-1) * Scalar_modulus)
      by lia.
    apply Z.mod_add. lia. }
  assert (HR : peq (verify_R {| Signature_r := r; Signature_s := s' |}
                      message publicKey networkId)
                   (Pallas_scale Pallas_one (Scalar_modulus - k))).
  { apply verify_R_peq with (sk := privateKey).
    - lia.
    - exact Hpk.
    - unfold s'. apply Z.mod_pos_bound. lia.
    - lia.
    - exact Hs'. }
  assert (Hneg : peq (Pallas_scale Pallas_one (Scalar_modulus - k))
                     (Pallas_negate (Pallas_scale Pallas_one k)))
    by (apply Pallas_scale_one_negate; lia).
  rewrite (verify_cases _ _ _ _ publicKey (publicKey_toGroup _ _ Hpk)).
  unfold peq in HR, Hneg.
  rewrite HR, Hneg, (fromProjective_negate _ _ Hkg).
  cbn [Group_x Group_y Signature_r].
  pose proof (commitment_y_nonzero k _ Hq2 Hkr Hkg) as Hy.
  pose proof (verify_commitment_even R0) as Heven.
  cbn [Group_y] in Hy.
  set (yk := if Field_isEven (Group_y R0)
             then Group_y R0 else Field_negate (Group_y R0)) in *.
  assert (Hodd : Field_isEven (Field_negate yk) = false).
  { unfold Field_isEven, Field_negate, Fp_negate in *.
    destruct (Z.eqb_spec yk 0); [contradiction |].
    rewrite Fp_isEven_spec in *.
    rewrite Z.even_sub, Heven, <- Z.negb_odd, Field_modulus_odd.
    reflexivity. }
  rewrite Hodd. reflexivity.
Qed.

(** X6: the two wrappers for a message that is one field element compose
    like [sign] and [verify]: what [signFieldElement] returns for a private
    key [0 < sk < q] is accepted by [verifyFieldElement] for the same field
    element, the public key of [sk] and the same network id. *)
Theorem FieldElement_round_trip (message : Field) (privateKey : PrivateKey)
  (networkId : NetworkId) (publicKey : Group) (signature : Signature) :
  0 < privateKey < Scalar_modulus ->
  Group_scale Group_generatorMina privateKey = Ok publicKey ->
  signFieldElement message privateKey networkId = Ok signature ->
  verifyFieldElement signature message (PublicKey_fromGroup publicKey)
    networkId = Ok true.
Proof.
  intros Hsk Hpk Hsign.
  unfold signFieldElement in Hsign. unfold verifyFieldElement.
  now apply verify_sign_Ok with (privateKey := privateKey).
Qed.

(** X7: for the key pair of [sk] and any [r], the signature with
    [s = e * sk mod q] makes the verifier's point [s*G - e*pk] infinity:
    the conversion to affine coordinates throws inside [verify], which
    returns [false]. *)
Theorem verify_infinity_is_false (message : HashInput)
  (privateKey : PrivateKey) (networkId : NetworkId) (publicKey : Group)
  (r : Field) :
  0 < privateKey < Scalar_modulus ->
  Group_scale Group_generatorMina privateKey = Ok publicKey ->
  let e := hashMessage message publicKey r networkId in
  let signature :=
    {| Signature_r := r;
       Signature_s := (e * privateKey) mod Scalar_modulus |} in
  PublicKey_toGroup (PublicKey_fromGroup publicKey) = Ok publicKey
  /\ (exists err,
        Group_fromProjective (verify_R signature message publicKey networkId)
        = Throw err)
  /\ verify signature message (PublicKey_fromGroup publicKey) networkId
     = Ok false.
Proof.
  intros Hsk Hpk e signature.
  split; [exact (publicKey_toGroup _ _ Hpk) |].
  assert (HR : peq (verify_R signature message publicKey networkId)
                   (Pallas_scale Pallas_one 0)).
  { apply verify_R_peq with (sk := privateKey).
    - lia.
    - exact Hpk.
    - apply Z.mod_pos_bound. lia.
    - lia.
    - cbn [Signature_r]. rewrite Z.mod_mod by lia. reflexivity. }
  unfold peq in HR.
  rewrite (Pallas_scale_0 Pallas_one) in HR.
  destruct fromProjective_zero as [err Herr]. rewrite Herr in HR.
  split; [now exists err |].
  rewrite (verify_cases _ _ _ _ publicKey (publicKey_toGroup _ _ Hpk)), HR.
  reflexivity.
Qed.

End SignVerifyEdges.

(** ** Signing, then writing and reading the signature *)

Section SignThenEncode.

Context {B : Backend} {C : CodecParams}.

(** X8: a signature that [sign] returned has [0 <= s < q], and when field
    elements and scalars fit 32 bytes it survives the text form:
    [Signature.fromBase58] of its [Signature.toBase58] is that signature. *)
Theorem sign_then_base58_round_trip (message : HashInput)
  (privateKey : PrivateKey) (networkId : NetworkId) (signature : Signature) :
  0 < Scalar_modulus <= 2 ^ 256 -> Field_modulus <= 2 ^ 256 ->
  (forall n R,
     Group_scale Group_generatorMina n = Ok R ->
     0 <= Group_x R < Field_modulus) ->
  (forall bytes, length (computeChecksum bytes) = 4%nat) ->
  (forall bytes, Forall is_byte (computeChecksum bytes)) ->
  is_byte versionBytes_signature -> is_byte versionNumbers_signature ->
  sign message privateKey networkId = Ok signature ->
  0 <= Signature_s signature < Scalar_modulus
  /\ Signature_fromBase58 (Signature_toBase58 signature) = Ok signature.
Proof.
  intros Hq Hp Hx Hlen Hsum Hvb Hvn Hsign.
  destruct (sign_Ok_inv _ _ _ _ Hsign)
    as (pk & kPrime & R0 & Hpk & Hnonce & Hk & HR0 & Hsig).
  assert (Hs : 0 <= Signature_s signature < Scalar_modulus).
  { rewrite Hsig. cbn [Signature_s]. unfold Scalar_add, Fp_add.
    apply Z.mod_pos_bound. lia. }
  assert (Hr : 0 <= Signature_r signature < Field_modulus).
  { rewrite Hsig. cbn [Signature_r]. now apply Hx with (n := kPrime). }
  split; [exact Hs |].
  apply Signature_round_trip; try assumption; lia.
Qed.

End SignThenEncode.

(** ** More facts on the small curve *)

Module SmallFacts.

Import Small.


(** The coordinates of an affine point are field elements. *)
Lemma coordinates_range (P : point) (g : Group) :
  fromProjective P = Ok g -> 0 <= Group_x g < p /\ 0 <= Group_y g < p.
Proof.
  intros HP. apply SmallLaws.fromProjective_Ok in HP.
  pose proof (SmallLaws.on_curve_norm P) as Hon. rewrite HP in Hon.
  unfold on_curve in Hon. rewrite !andb_true_iff in Hon.
  destruct Hon as [[[[H1 H2] H3] H4] _].
  apply Z.leb_le in H1, H3. apply Z.ltb_lt in H2, H4. lia.
Qed.

Lemma byte_hash_bytes (input : list Z) (key : option (list Z)) (outlen : Z) :
  Forall is_byte (byte_hash input key outlen).
Proof.
  unfold byte_hash. apply Forall_forall. intros b Hb.
  apply in_map_iff in Hb. destruct Hb as (i & <- & _).
  apply Z.mod_pos_bound. lia.
Qed.

Lemma checksum_bytes (bytes : list Z) : Forall is_byte (checksum bytes).
Proof.
  unfold checksum. apply Forall_forall. intros b Hb.
  apply in_map_iff in Hb. destruct Hb as (i & <- & _).
  apply Z.mod_pos_bound. lia.
Qed.

End SmallFacts.

(** ** The further theorems at work on the small backend *)

Lemma deriveNonce_below_2_254_witness :
  (forall input, length (Small.byte_hash input None 32) = 32%nat)
  /\ (forall input, Forall is_byte (Small.byte_hash input None 32))
  /\ 2 ^ 254 <= @Scalar_modulus backend_Pallas_order
  /\ exists kPrime,
       @deriveNonce backend_Pallas_order {| fields := [7]; packed := [] |}
         {| Group_x := 22; Group_y := 24 |} 3 "testnet" = Ok kPrime
       /\ 0 <= kPrime < 2 ^ 254.
Proof.
  assert (H1 : forall input, length (Small.byte_hash input None 32) = 32%nat)
    by (intros input; reflexivity).
  assert (H2 : forall input, Forall is_byte (Small.byte_hash input None 32))
    by (intros input; apply SmallFacts.byte_hash_bytes).
  assert (H3 : 2 ^ 254 <= @Scalar_modulus backend_Pallas_order)
    by (vm_compute; discriminate).
  split; [exact H1 |]. split; [exact H2 |]. split; [exact H3 |].
  pose proof (@deriveNonce_below_2_254 backend_Pallas_order
                {| fields := [7]; packed := [] |}
                {| Group_x := 22; Group_y := 24 |} 3 "testnet" H1 H2 H3) as H.
  destruct (@deriveNonce backend_Pallas_order
              {| fields := [7]; packed := [] |}
              {| Group_x := 22; Group_y := 24 |} 3 "testnet")
    as [kPrime | e] eqn:E.
  - exists kPrime. split; [reflexivity | exact (proj2 H kPrime eq_refl)].
  - vm_compute in E. discriminate E.
Defined.

Section MoreOnSmallBackend.

#[local] Existing Instance Small.backend.

Lemma sign_zero_key_throws_witness :
  0 <= 0 /\ 0 mod 43 = 0
  /\ exists e,
       Group_scale Group_generatorMina 0 = Throw e
       /\ Group_fromProjective Pallas_zero = Throw e
       /\ sign {| fields := [7]; packed := [] |} 0 "testnet" = Throw e.
Proof.
  split; [lia |]. split; [reflexivity |].
  apply (@sign_zero_key_throws Small.backend SmallLaws.laws
           {| fields := [7]; packed := [] |} 0 "testnet").
  - lia.
  - reflexivity.
Defined.

Lemma verify_s_modulo_order_witness :
  0 <= 42 /\ 0 <= 85 /\ 42 mod 43 = 85 mod 43
  /\ verify {| Signature_r := 5; Signature_s := 42 |}
       {| fields := [7]; packed := [] |}
       {| PublicKey_x := 22; PublicKey_isOdd := false |} "testnet"
     = verify {| Signature_r := 5; Signature_s := 85 |}
         {| fields := [7]; packed := [] |}
         {| PublicKey_x := 22; PublicKey_isOdd := false |} "testnet".
Proof.
  split; [lia |]. split; [lia |]. split; [reflexivity |].
  apply (@verify_s_modulo_order Small.backend SmallLaws.laws 5 42 85
           {| fields := [7]; packed := [] |}
           {| PublicKey_x := 22; PublicKey_isOdd := false |} "testnet").
  - lia.
  - lia.
  - reflexivity.
Defined.


Lemma verify_rejects_twin_witness :
  0 < 3 < 43 /\ 2 < 43
  /\ sign {| fields := [7]; packed := [] |} 3 "testnet"
     = Ok {| Signature_r := 5; Signature_s := 42 |}
  /\ verify {| Signature_r := 5; Signature_s := 30 |}
       {| fields := [7]; packed := [] |}
       (PublicKey_fromGroup {| Group_x := 22; Group_y := 24 |}) "testnet"
     = Ok false.
Proof.
  assert (Hsign : sign {| fields := [7]; packed := [] |} 3 "testnet"
                  = Ok {| Signature_r := 5; Signature_s := 42 |})
    by (vm_compute; reflexivity).
  split; [lia |]. split; [lia |]. split; [exact Hsign |].
  apply (@verify_rejects_twin Small.backend SmallLaws.laws
           {| fields := [7]; packed := [] |} 3 "testnet"
           {| Group_x := 22; Group_y := 24 |}
           {| Signature_r := 5; Signature_s := 42 |}).
  - vm_compute. split; reflexivity.
  - vm_compute. reflexivity.
  - vm_compute. reflexivity.
  - exact Hsign.
Defined.

Lemma FieldElement_round_trip_witness :
  0 < 3 < 43
  /\ signFieldElement 7 3 "testnet"
     = Ok {| Signature_r := 5; Signature_s := 42 |}
  /\ verifyFieldElement {| Signature_r := 5; Signature_s := 42 |} 7
       (PublicKey_fromGroup {| Group_x := 22; Group_y := 24 |}) "testnet"
     = Ok true.
Proof.
  assert (Hsign : signFieldElement 7 3 "testnet"
                  = Ok {| Signature_r := 5; Signature_s := 42 |})
    by (vm_compute; reflexivity).
  split; [lia |]. split; [exact Hsign |].
  apply (@FieldElement_round_trip Small.backend SmallLaws.laws 7 3 "testnet"
           {| Group_x := 22; Group_y := 24 |}
           {| Signature_r := 5; Signature_s := 42 |}).
  - vm_compute. split; reflexivity.
  - vm_compute. reflexivity.
  - exact Hsign.
Defined.

Lemma verify_infinity_is_false_witness :
  0 < 3 < 43
  /\ PublicKey_toGroup
       (PublicKey_fromGroup {| Group_x := 22; Group_y := 24 |})
     = Ok {| Group_x := 22; Group_y := 24 |}
  /\ (exists err,
        Group_fromProjective
          (verify_R {| Signature_r := 5; Signature_s := 36 |}
             {| fields := [7]; packed := [] |}
             {| Group_x := 22; Group_y := 24 |} "testnet") = Throw err)
  /\ verify {| Signature_r := 5; Signature_s := 36 |}
       {| fields := [7]; packed := [] |}
       (PublicKey_fromGroup {| Group_x := 22; Group_y := 24 |}) "testnet"
     = Ok false.
Proof.
  split; [lia |].
  apply (@verify_infinity_is_false Small.backend SmallLaws.laws
           {| fields := [7]; packed := [] |} 3 "testnet"
           {| Group_x := 22; Group_y := 24 |} 5).
  - vm_compute. split; reflexivity.
  - vm_compute. reflexivity.
Defined.

Lemma sign_then_base58_round_trip_witness :
  sign {| fields := [7]; packed := [] |} 3 "testnet"
  = Ok {| Signature_r := 5; Signature_s := 42 |}
  /\ 0 <= 42 < 43
  /\ @Signature_fromBase58 Small.backend Small.codec
       (@Signature_toBase58 Small.backend Small.codec
          {| Signature_r := 5; Signature_s := 42 |})
     = Ok {| Signature_r := 5; Signature_s := 42 |}.
Proof.
  assert (Hsign : sign {| fields := [7]; packed := [] |} 3 "testnet"
                  = Ok {| Signature_r := 5; Signature_s := 42 |})
    by (vm_compute; reflexivity).
  split; [exact Hsign |].
  apply (@sign_then_base58_round_trip Small.backend Small.codec
           {| fields := [7]; packed := [] |} 3 "testnet"
           {| Signature_r := 5; Signature_s := 42 |}).
  - vm_compute. split; [reflexivity | discriminate].
  - vm_compute. discriminate.
  - intros n R HR.
    apply (SmallFacts.coordinates_range _ _ HR).
  - intros bytes. reflexivity.
  - exact SmallFacts.checksum_bytes.
  - unfold is_byte. cbn. lia.
  - unfold is_byte. cbn. lia.
  - exact Hsign.
Defined.

End MoreOnSmallBackend.
